(** * Multiple dispatch in [method-dispatch.c]

    A shallow embedding of the C core of the R7 method dispatcher
    ([method_rec], [R7_method_lookup_error], [method_], [R7_obj_dispatch],
    [method_call_]) together with the properties that its design document
    states about it.  [R7_object_], which only allocates an object, is left
    out.

    R values are modelled by the inductive type [SEXP]; environments and
    promises, which the C code shares by pointer and mutates in place, live
    in explicit stores indexed by addresses.  Code of the host that the core
    runs, the expressions of the arguments and the body of the method, is a
    parameter that may change these stores. *)

From Equations Require Import Equations.
From stdpp Require Import gmap strings list fin_maps.

Set Warnings "-register-all".

(** ** R values *)

Definition addr := nat.

(** A closure: its formal parameter names, in order, and an opaque body. *)
Record closure := { FORMALS : list string; BODY : nat }.

(** The fragment of R's [SEXP] that the dispatcher inspects.  Environments
    and promises are pointers into the stores of a [world]; symbols are
    identified with their print names, as [Rf_install] interns them. *)
Inductive SEXP : Type :=
| R_NilValue
| R_UnboundValue
| SYMSXP (pname : string)
| ENVSXP (a : addr)
| PROMSXP (a : addr)
| CLOSXP (f : closure) (attrib : list (string * SEXP))
| LGLSXP (x : list (option bool))
| INTSXP (x : list (option Z))
| STRSXP (x : list string)
| VECSXP (x : list SEXP) (attrib : list (string * SEXP))
| LANGSXP (x : list SEXP).

(** The missing-argument marker is the symbol with the empty print name. *)
Definition R_MissingArg : SEXP := SYMSXP "".

Inductive SEXPTYPE :=
| NILSXP_t | SYMSXP_t | ENVSXP_t | PROMSXP_t | CLOSXP_t
| LGLSXP_t | INTSXP_t | STRSXP_t | VECSXP_t | LANGSXP_t.

#[global] Instance SEXPTYPE_eq_dec : EqDecision SEXPTYPE.
Proof. solve_decision. Defined.

Definition TYPEOF (s : SEXP) : SEXPTYPE :=
  match s with
  | R_NilValue => NILSXP_t
  | R_UnboundValue => SYMSXP_t
  | SYMSXP _ => SYMSXP_t
  | ENVSXP _ => ENVSXP_t
  | PROMSXP _ => PROMSXP_t
  | CLOSXP _ _ => CLOSXP_t
  | LGLSXP _ => LGLSXP_t
  | INTSXP _ => INTSXP_t
  | STRSXP _ => STRSXP_t
  | VECSXP _ _ => VECSXP_t
  | LANGSXP _ => LANGSXP_t
  end.

(** [m == R_NilValue] *)
Definition is_R_NilValue (s : SEXP) : bool :=
  match s with R_NilValue => true | _ => false end.

(** ** How a piece of code ends *)

(** How a piece of C code ends: it returns, an R condition unwinds the C
    stack ([Rf_error] or an error inside evaluated R code), it loops for
    ever, or it was given an input outside the model. *)
Inductive outcome (A : Type) :=
| Ret (a : A)
| Raise (msg : string)
| Spin
| Stuck.
Arguments Ret {A} a.
Arguments Raise {A} msg.
Arguments Spin {A}.
Arguments Stuck {A}.

(** Sequencing: what follows runs only after a return. *)
Definition outcome_bind {A B} (o : outcome A) (k : A → outcome B) : outcome B :=
  match o with
  | Ret a => k a
  | Raise msg => Raise msg
  | Spin => Spin
  | Stuck => Stuck
  end.

(** ** Environments *)

(** A frame binds symbols to values; the heap maps the address of every
    environment to its frame.  Nothing prevents a frame from holding the
    address of its own environment, so tables may be cyclic. *)
Abbreviation frame := (gmap string SEXP).
Abbreviation heap := (gmap addr (gmap string SEXP)).

(** [Rf_findVarInFrame(rho, symbol)]: the value bound in the frame itself,
    [R_UnboundValue] when there is none.  Active bindings are not modelled. *)
Definition Rf_findVarInFrame (h : heap) (rho : addr) (symbol : string) : SEXP :=
  match h !! rho with
  | Some fr => default R_UnboundValue (fr !! symbol)
  | None => R_UnboundValue
  end.

(** [Rf_install(name)]: the symbol of that name.  R refuses to make a symbol
    whose name is empty or longer than 10000 bytes, and raises an error. *)
Definition valid_name (name : string) : Prop :=
  name ≠ "" ∧ (Z.of_nat (String.length name) ≤ 10000)%Z.

#[global] Instance valid_name_dec (name : string) : Decision (valid_name name).
Proof. unfold valid_name. apply _. Defined.

Definition Rf_install (name : string) : outcome string :=
  if decide (name = "") then Raise "attempt to use zero-length variable name"
  else if decide (Z.of_nat (String.length name) ≤ 10000)%Z then Ret name
  else Raise "variable names are limited to 10000 bytes".

(** Modelled from the spec: [ANY_sym] is declared [extern] in the source and
    defined elsewhere; the design document names the wildcard key [ANY]. *)
Definition ANY_sym : string := "ANY".

(** ** The resolver *)

(** A signature: one class list per dispatch argument.  An element that is
    [R_NilValue] in C has length zero and is the empty list here. *)
Abbreviation signature_t := (list (list string)).

(** The [for] loop of [method_rec] (lines 17-26): [probe name] interns the
    class name and yields the value of [val] after the optional recursive
    call; the loop returns from the function at the first closure, and an
    error raised on the way ends it. *)
Fixpoint classes_loop (probe : string → outcome SEXP) (classes : list string)
    : outcome (option SEXP) :=
  match classes with
  | [] => Ret None
  | name :: rest =>
      outcome_bind (probe name) (fun val =>
        if decide (TYPEOF val = CLOSXP_t) then Ret (Some val)
        else classes_loop probe rest)
  end.

Equations? method_rec (h : heap) (table : addr) (signature : signature_t)
    (signature_itr : nat) : outcome SEXP by wf (length signature - signature_itr) lt :=
  method_rec h table signature signature_itr
    with le_lt_dec (length signature) signature_itr => {
    | left _ => Ret R_NilValue
    | right Hlt =>
        let classes := signature !!! signature_itr in
        let descend := fun val : SEXP =>
          match val with
          | ENVSXP t' => method_rec h t' signature (S signature_itr)
          | _ => Ret val
          end in
        outcome_bind
          (classes_loop
             (fun name =>
                outcome_bind (Rf_install name) (fun klass =>
                  descend (Rf_findVarInFrame h table klass)))
             classes)
          (fun found =>
             match found with
             | Some val => Ret val
             | None =>
                 outcome_bind (descend (Rf_findVarInFrame h table ANY_sym))
                   (fun val =>
                      Ret (if decide (TYPEOF val = CLOSXP_t) then val
                           else R_NilValue))
             end) }.
Proof. all: lia. Qed.

(** What becomes of a binding: an environment is walked with the next
    position of the signature, any other value is kept. *)
Definition descend (h : heap) (signature : signature_t) (signature_itr : nat)
    (val : SEXP) : outcome SEXP :=
  match val with
  | ENVSXP t' => method_rec h t' signature (S signature_itr)
  | _ => Ret val
  end.

(** The probe of [method_rec] for one class name: intern it, look it up,
    descend. *)
Definition probe (h : heap) (table : addr) (signature : signature_t)
    (signature_itr : nat) (name : string) : outcome SEXP :=
  outcome_bind (Rf_install name) (fun klass =>
    descend h signature signature_itr (Rf_findVarInFrame h table klass)).

(** The same recursion with an explicit budget of nested calls instead of a
    termination argument: [None] means that the budget ran out. *)
Fixpoint classes_loop_fuel (probe : string → option (outcome SEXP))
    (classes : list string) : option (outcome (option SEXP)) :=
  match classes with
  | [] => Some (Ret None)
  | name :: rest =>
      match probe name with
      | None => None
      | Some (Ret val) =>
          if decide (TYPEOF val = CLOSXP_t) then Some (Ret (Some val))
          else classes_loop_fuel probe rest
      | Some (Raise msg) => Some (Raise msg)
      | Some Spin => Some Spin
      | Some Stuck => Some Stuck
      end
  end.

Fixpoint method_rec_fuel (fuel : nat) (h : heap) (table : addr)
    (signature : signature_t) (signature_itr : nat) : option (outcome SEXP) :=
  match fuel with
  | 0 => None
  | S fuel' =>
      if le_lt_dec (length signature) signature_itr then Some (Ret R_NilValue)
      else
        let classes := signature !!! signature_itr in
        let descend := fun val : SEXP =>
          match val with
          | ENVSXP t' => method_rec_fuel fuel' h t' signature (S signature_itr)
          | _ => Some (Ret val)
          end in
        match classes_loop_fuel
                (fun name =>
                   match Rf_install name with
                   | Ret klass => descend (Rf_findVarInFrame h table klass)
                   | Raise msg => Some (Raise msg)
                   | Spin => Some Spin
                   | Stuck => Some Stuck
                   end)
                classes with
        | None => None
        | Some (Ret (Some val)) => Some (Ret val)
        | Some (Ret None) =>
            match descend (Rf_findVarInFrame h table ANY_sym) with
            | None => None
            | Some (Ret val) =>
                Some (Ret (if decide (TYPEOF val = CLOSXP_t) then val
                           else R_NilValue))
            | Some (Raise msg) => Some (Raise msg)
            | Some Spin => Some Spin
            | Some Stuck => Some Stuck
            end
        | Some (Raise msg) => Some (Raise msg)
        | Some Spin => Some Spin
        | Some Stuck => Some Stuck
        end
  end.

(** ** The resolver of the design document *)

(** What [lookup(node, key)] yields: a child is another node or a method. *)
Inductive child :=
| Node (n : addr)
| Method (m : SEXP).

(** The table as the design document sees it: an environment is a node, a
    closure is a method, any other binding is no child at all. *)
Definition lookup (h : heap) (node : addr) (key : string) : option child :=
  match Rf_findVarInFrame h node key with
  | ENVSXP n => Some (Node n)
  | CLOSXP f a => Some (Method (CLOSXP f a))
  | _ => None
  end.

(** One probe of the pseudo-code: [Some m] is "return m", [None] is
    "fall through to the next key". *)
Definition resolve_child (rec : addr → option SEXP) (c : option child) : option SEXP :=
  match c with
  | Some (Node n) => rec n
  | Some (Method m) => Some m
  | None => None
  end.

Fixpoint resolve_classes (try : string → option SEXP) (classes : list string)
    : option SEXP :=
  match classes with
  | [] => None
  | c :: rest =>
      match try c with
      | Some m => Some m
      | None => resolve_classes try rest
      end
  end.

(** [resolve(node, S, i)], written after the pseudo-code of the design
    document; [None] is absent. *)
Equations? resolve (h : heap) (node : addr) (S_ : signature_t) (i : nat)
    : option SEXP by wf (length S_ - i) lt :=
  resolve h node S_ i with le_lt_dec (length S_) i => {
    | left _ => None
    | right Hlt =>
        let try := fun c : string =>
          resolve_child (fun n => resolve h n S_ (S i)) (lookup h node c) in
        match resolve_classes try (S_ !!! i) with
        | Some m => Some m
        | None => try ANY_sym
        end }.
Proof. all: lia. Qed.

(** The reading of the design document under which a method bound above the
    last level is ignored: a method child counts only when [i] is the last
    position of the signature. *)
Definition resolve_child_leaf (last : bool) (rec : addr → option SEXP)
    (c : option child) : option SEXP :=
  match c with
  | Some (Node n) => rec n
  | Some (Method m) => if last then Some m else None
  | None => None
  end.

Equations? resolve_leaf_only (h : heap) (node : addr) (S_ : signature_t) (i : nat)
    : option SEXP by wf (length S_ - i) lt :=
  resolve_leaf_only h node S_ i with le_lt_dec (length S_) i => {
    | left _ => None
    | right Hlt =>
        let try := fun c : string =>
          resolve_child_leaf (bool_decide (S i = length S_))
            (fun n => resolve_leaf_only h n S_ (S i)) (lookup h node c) in
        match resolve_classes try (S_ !!! i) with
        | Some m => Some m
        | None => try ANY_sym
        end }.
Proof. all: lia. Qed.

(** [absent] is [R_NilValue] in C. *)
Definition absent_or (r : option SEXP) : SEXP := default R_NilValue r.

(** A signature all of whose class names can be interned. *)
Definition valid_signature (S_ : signature_t) : Prop :=
  Forall (Forall valid_name) S_.

(** ** Attributes, lengths and coercions *)

Definition ATTRIB (s : SEXP) : list (string * SEXP) :=
  match s with
  | CLOSXP _ a | VECSXP _ a => a
  | _ => []
  end.

Fixpoint assoc (name : string) (a : list (string * SEXP)) : option SEXP :=
  match a with
  | [] => None
  | (k, v) :: rest => if decide (k = name) then Some v else assoc name rest
  end.

(** [Rf_getAttrib(s, Rf_install(name))] *)
Definition Rf_getAttrib (s : SEXP) (name : string) : SEXP :=
  default R_NilValue (assoc name (ATTRIB s)).

(** [Rf_inherits(s, what)]: [what] occurs in the class attribute. *)
Definition Rf_inherits (s : SEXP) (what : string) : bool :=
  match Rf_getAttrib s "class" with
  | STRSXP klass => bool_decide (what ∈ klass)
  | _ => false
  end.

(** [Rf_xlength]: the length of a vector or call, the number of bindings of
    an environment, 1 for the remaining types. *)
Definition Rf_xlength (h : heap) (s : SEXP) : nat :=
  match s with
  | R_NilValue => 0
  | LGLSXP x => length x
  | INTSXP x => length x
  | STRSXP x => length x
  | VECSXP x _ => length x
  | LANGSXP x => length x
  | ENVSXP a => size (default ∅ (h !! a))
  | _ => 1
  end.

Definition NA_INTEGER : Z := (- 2147483648)%Z.

(** [Rf_asInteger]: the first element of a logical or integer vector,
    [NA_INTEGER] for NA, for an empty vector and for a value that is not an
    atomic vector.  The conversion of a string is not modelled ([None]). *)
Definition Rf_asInteger (s : SEXP) : option Z :=
  match s with
  | LGLSXP (Some b :: _) => Some (if b then 1 else 0)%Z
  | INTSXP (Some n :: _) => Some n
  | STRSXP (_ :: _) => None
  | _ => Some NA_INTEGER
  end.

Definition Rf_ScalarLogical (x : Z) : SEXP :=
  LGLSXP [if decide (x = NA_INTEGER) then None else Some (negb (x =? 0)%Z)].

Definition Rf_mkString (s : string) : list string := [s].

(** [VECTOR_ELT(x, i)], defined on a list within its bounds. *)
Definition VECTOR_ELT (x : SEXP) (i : nat) : option SEXP :=
  match x with
  | VECSXP l _ => l !! i
  | _ => None
  end.

(** A value stored into [dispatch_classes], read back as a class list the
    way [method_rec] reads it: the strings of a character vector, nothing
    for [R_NilValue].  Other values are outside the model. *)
Definition as_classes (s : SEXP) : option (list string) :=
  match s with
  | STRSXP x => Some x
  | R_NilValue => Some []
  | _ => None
  end.

(** ** The mutable world *)

(** A promise: its value slot ([R_UnboundValue] until it is forced), its
    expression and the environment the expression is evaluated in. *)
Record promise := Promise { PRVALUE : SEXP; PRCODE : SEXP; PRENV : SEXP }.

(** A cell of the argument list of a call. *)
Record cell := Cell { CAR : SEXP; TAG : SEXP }.

(** What the core asks of the host, in the order it asks. *)
Inductive event :=
| EvForce (p : addr)
| EvObjDispatch (object : SEXP)
| EvLookupError (name args : SEXP) (signature : signature_t)
| EvApply (m : SEXP) (args : list cell) (envir : addr).

Record world := World {
  envs : heap;
  proms : gmap addr promise;
  trace : list event
}.

Definition M (A : Type) : Type := world → outcome A * world.

#[global] Instance M_ret : MRet M := λ A a w, (Ret a, w).
#[global] Instance M_bind : MBind M := λ A B k m w,
  match m w with
  | (Ret a, w') => k a w'
  | (Raise msg, w') => (Raise msg, w')
  | (Spin, w') => (Spin, w')
  | (Stuck, w') => (Stuck, w')
  end.

Definition get_world : M world := λ w, (Ret w, w).
Definition log (e : event) : M unit :=
  λ w, (Ret (), World (envs w) (proms w) (trace w ++ [e])).
Definition halt {A} (o : outcome A) : M A := λ w, (o, w).
(** The outcome of a collaborator, passed on. *)
Definition host {A} (o : outcome A) : M A := halt o.
Definition Rf_error {A} (msg : string) : M A := halt (Raise msg).

Definition get_promise (p : addr) : M promise := λ w,
  match proms w !! p with
  | Some pr => (Ret pr, w)
  | None => (Stuck, w)
  end.
Definition set_promise (p : addr) (pr : promise) : M unit :=
  λ w, (Ret (), World (envs w) (<[p := pr]> (proms w)) (trace w)).

(** [SET_PRVALUE(PROMSXP p, v)] *)
Definition SET_PRVALUE (p : addr) (v : SEXP) : M unit :=
  pr ← get_promise p;
  set_promise p (Promise v (PRCODE pr) (PRENV pr)).

Definition is_unbound (s : SEXP) : bool :=
  match s with R_UnboundValue => true | _ => false end.

Definition is_R_MissingArg (s : SEXP) : bool :=
  match s with SYMSXP "" => true | _ => false end.

(** The forces recorded in a trace, in order. *)
Definition forces (t : list event) : list addr :=
  omap (λ e, match e with EvForce p => Some p | _ => None end) t.

(** Expressions whose evaluation changes nothing: the value depends on the
    expression and its environment alone. *)
Definition pure_thunks (thunk_value : SEXP → SEXP → outcome SEXP)
    : SEXP → SEXP → M SEXP :=
  λ code env, host (thunk_value code env).

Section Host.

(** The host and the collaborators.  [eval_code code env] evaluates the
    expression of a promise in its environment: it is code of the user and
    may do to the world whatever it likes.  So may [apply_closure], the
    application of the selected method to the rebuilt argument list.
    [obj_dispatch] and [method_lookup_error] are functions of the package
    itself, taken as functions of their arguments.  [thunk_value] is used
    to speak of expressions that are pure. *)
Variable eval_code : SEXP → SEXP → M SEXP.
Variable thunk_value : SEXP → SEXP → outcome SEXP.
Variable obj_dispatch : SEXP → outcome (list string).
Variable method_lookup_error : SEXP → SEXP → signature_t → outcome SEXP.
Variable apply_closure : SEXP → list cell → addr → M SEXP.

(** [Rf_eval(PROMSXP p, rho)]: a promise whose value slot is filled yields
    that value; otherwise the expression is evaluated ([forcePromise]), and
    when the evaluation returns, the value is stored in the promise as it
    then is and its environment dropped. *)
Definition Rf_eval_promise (p : addr) : M SEXP :=
  pr ← get_promise p;
  if is_unbound (PRVALUE pr) then
    log (EvForce p);;
    val ← eval_code (PRCODE pr) (PRENV pr);
    pr' ← get_promise p;
    set_promise p (Promise val (PRCODE pr') R_NilValue);;
    mret val
  else mret (PRVALUE pr).

(** *** What a call frame holds, read without running anything *)

(** The expression of the promise at [p]; no step of the core changes it. *)
Definition code_of (w : world) (p : addr) : option SEXP :=
  PRCODE <$> proms w !! p.

(** The binding is the missing marker, or a promise of it. *)
Definition is_missing (w : world) (arg : SEXP) : bool :=
  match arg with
  | SYMSXP "" => true
  | PROMSXP p =>
      match code_of w p with
      | Some c => is_R_MissingArg c
      | None => false
      end
  | _ => false
  end.

(** The promise bound to [name] in [envir], when an argument was supplied. *)
Definition supplied (w : world) (envir : addr) (name : string) : option addr :=
  match Rf_findVarInFrame (envs w) envir name with
  | PROMSXP p =>
      match code_of w p with
      | Some c => if is_R_MissingArg c then None else Some p
      | None => None
      end
  | _ => None
  end.

Definition supplied_promises (w : world) (envir : addr) (names : list string) : list addr :=
  omap (supplied w envir) names.

Definition unforced (w : world) (p : addr) : bool :=
  match proms w !! p with
  | Some pr => is_unbound (PRVALUE pr)
  | None => false
  end.

(** What [Rf_eval] yields for the promise at [p] in the world [w], when
    the expressions are pure. *)
Definition promise_value (w : world) (p : addr) : outcome SEXP :=
  match proms w !! p with
  | None => Stuck
  | Some pr =>
      if is_unbound (PRVALUE pr) then thunk_value (PRCODE pr) (PRENV pr)
      else Ret (PRVALUE pr)
  end.

(** The value that ends up in the promise: the value itself, or the true
    value stored in a super-shim. *)
Definition memo_value (val : SEXP) : option SEXP :=
  if Rf_inherits val "R7_super" then VECTOR_ELT val 0 else Some val.

(** The class list used for a value: the one stored in a super-shim, or the
    collaborator's. *)
Definition classes_for (val : SEXP) : outcome (list string) :=
  if Rf_inherits val "R7_super" then
    match VECTOR_ELT val 1 ≫= as_classes with
    | Some cl => Ret cl
    | None => Stuck
    end
  else obj_dispatch val.


(** What the builder owes the formal [name] at position [j], between the
    world [w] it starts in and the world [w'] it ends in: [dc] is the
    finished [dispatch_classes] and [c] the cell of the call at [j]. *)
Definition position_spec (w w' : world) (envir : addr) (n_dispatch j : nat)
    (name : string) (dc : signature_t) (c : option cell) : Prop :=
  if decide (j < n_dispatch) then
    match supplied w envir name with
    | Some p =>
        ∃ val tv cls pr',
          promise_value w p = Ret val ∧
          memo_value val = Some tv ∧
          classes_for val = Ret cls ∧
          (j < length dc → dc !! j = Some cls) ∧
          c = Some (Cell (PROMSXP p) R_NilValue) ∧
          proms w' !! p = Some pr' ∧ PRVALUE pr' = tv
    | None =>
        is_missing w (Rf_findVarInFrame (envs w) envir name) = true ∧
        (j < length dc → dc !! j = Some (Rf_mkString "MISSING")) ∧
        c = Some (Cell (SYMSXP name) R_NilValue)
    end
  else c = Some (Cell (SYMSXP name) (SYMSXP name)).

(** [PRCODE(x)].  For a promise it is the expression slot.  The core also
    applies it to [R_MissingArg], the binding of a formal that was given no
    argument and has no default: the cell it then reads is the symbol's
    value, which is [R_MissingArg] itself.  A binding of any other type is
    outside the model. *)
Definition PRCODE_of (x : SEXP) : M SEXP :=
  match x with
  | PROMSXP p => pr ← get_promise p; mret (PRCODE pr)
  | SYMSXP "" => mret R_MissingArg
  | _ => halt Stuck
  end.

(** [Rf_eval(e, R_EmptyEnv)] as the core uses it, on a promise. *)
Definition Rf_eval (e : SEXP) : M SEXP :=
  match e with
  | PROMSXP p => Rf_eval_promise p
  | _ => halt Stuck
  end.

Definition SET_PRVALUE_of (x : SEXP) (v : SEXP) : M unit :=
  match x with
  | PROMSXP p => SET_PRVALUE p v
  | _ => halt Stuck
  end.

(** [R7_method_lookup_error] (lines 40-54): build and evaluate the call of
    the collaborator, then [while(1);].  Whatever the collaborator does, the
    function does not return. *)
Definition R7_method_lookup_error {A} (generic : SEXP) (signature : signature_t) : M A :=
  let name := Rf_getAttrib generic "name" in
  let args := Rf_getAttrib generic "dispatch_args" in
  log (EvLookupError name args signature);;
  _ ← host (method_lookup_error name args signature);
  halt Spin.

(** How [R7_method_lookup_error] ends, given how the collaborator ends. *)
Definition lookup_error_outcome (generic : SEXP) (signature : signature_t) : outcome SEXP :=
  match method_lookup_error (Rf_getAttrib generic "name")
          (Rf_getAttrib generic "dispatch_args") signature with
  | Ret _ => Spin
  | Raise msg => Raise msg
  | Spin => Spin
  | Stuck => Stuck
  end.

(** [method_] (lines 56-74). *)
Definition method_ (generic : SEXP) (signature : signature_t) (error_ : SEXP) : M SEXP :=
  if negb (Rf_inherits generic "R7_generic") then mret R_NilValue
  else
    let table := Rf_getAttrib generic "methods" in
    match table with
    | ENVSXP t =>
        w ← get_world;
        m ← host (method_rec (envs w) t signature 0);
        error ← from_option mret (halt Stuck) (Rf_asInteger error_);
        if negb (error =? 0)%Z && is_R_NilValue m then
          R7_method_lookup_error generic signature
        else mret m
    | _ => Rf_error "Corrupt R7_generic: @methods isn't an environment"
    end.

(** [R7_obj_dispatch] (lines 76-89): the call of the collaborator. *)
Definition R7_obj_dispatch (object : SEXP) : M (list string) :=
  log (EvObjDispatch object);;
  host (obj_dispatch object).

(** One turn of the loop of [method_call_] (lines 121-157) for the formal
    [name] at position [i]: the updated [dispatch_classes] and the cell
    appended to the call.  [Rf_findVar(name, envir)] is the lookup in the
    frame of [envir]: the formals of the running generic are bound there,
    so the enclosing environments are never reached. *)
Definition arg_iter (envir : addr) (n_dispatch i : nat) (name : string)
    (dispatch_classes : signature_t) : M (signature_t * cell) :=
  w ← get_world;
  let arg := Rf_findVarInFrame (envs w) envir name in
  if decide (i < n_dispatch) then
    code ← PRCODE_of arg;
    if negb (is_R_MissingArg code) then
      val ← Rf_eval arg;
      if negb (Rf_inherits val "R7_super") then
        SET_PRVALUE_of arg val;;
        classes ← R7_obj_dispatch val;
        mret (<[i := classes]> dispatch_classes, Cell arg R_NilValue)
      else
        true_val ← from_option mret (halt Stuck) (VECTOR_ELT val 0);
        SET_PRVALUE_of arg true_val;;
        classes ← from_option mret (halt Stuck) (VECTOR_ELT val 1 ≫= as_classes);
        mret (<[i := classes]> dispatch_classes, Cell arg R_NilValue)
    else
      mret (<[i := Rf_mkString "MISSING"]> dispatch_classes,
            Cell (SYMSXP name) R_NilValue)
  else
    mret (dispatch_classes, Cell (SYMSXP name) (SYMSXP name)).

(** The loop itself (lines 119-161): [formals] is walked by [CDR] while [i]
    counts; the cells are appended at [mcall_tail], so they come out in the
    order of the formals. *)
Fixpoint args_loop (envir : addr) (n_dispatch i : nat) (formals : list string)
    (dispatch_classes : signature_t) : M (signature_t * list cell) :=
  match formals with
  | [] => mret (dispatch_classes, [])
  | name :: formals' =>
      '(dispatch_classes', c) ← arg_iter envir n_dispatch i name dispatch_classes;
      '(dispatch_classes'', mcall) ←
        args_loop envir n_dispatch (S i) formals' dispatch_classes';
      mret (dispatch_classes'', c :: mcall)
  end.

(** [Rf_eval(mcall, envir)]: the call of the value in the callee slot. *)
Definition Rf_eval_call (m : SEXP) (args : list cell) (envir : addr) : M SEXP :=
  match m with
  | CLOSXP _ _ => log (EvApply m args envir);; apply_closure m args envir
  | _ => Rf_error "attempt to apply non-function"
  end.

(** The signature builder (lines 102-161): the class lists of the dispatch
    arguments and the argument list of the call to come.  A slot of
    [dispatch_classes] that no turn fills keeps the [R_NilValue] it was
    allocated with, the empty class list. *)
Definition build_signature (generic : SEXP) (envir : addr) : M (signature_t * list cell) :=
  match generic with
  | CLOSXP f _ =>
      let formals := FORMALS f in
      w ← get_world;
      let dispatch_args := Rf_getAttrib generic "dispatch_args" in
      let n_dispatch := Rf_xlength (envs w) dispatch_args in
      args_loop envir n_dispatch 0 formals (replicate n_dispatch [])
  | _ => halt Stuck
  end.

(** The formals of the generic, the number of its dispatch arguments and
    the promises of the dispatch arguments that were supplied, in the order
    of the formals. *)
Definition formals_of (generic : SEXP) : list string :=
  match generic with
  | CLOSXP f _ => FORMALS f
  | _ => []
  end.

Definition n_dispatch_of (w : world) (generic : SEXP) : nat :=
  Rf_xlength (envs w) (Rf_getAttrib generic "dispatch_args").

Definition dispatch_promises (w : world) (generic : SEXP) (envir : addr) : list addr :=
  supplied_promises w envir (take (n_dispatch_of w generic) (formals_of generic)).

(** [method_call_] (lines 99-172).  [call] is not used by the C code. *)
Definition method_call_ (call generic envir : SEXP) : M SEXP :=
  match envir with
  | ENVSXP rho =>
      '(dispatch_classes, mcall) ← build_signature generic rho;
      m ← method_ generic dispatch_classes (Rf_ScalarLogical 1);
      Rf_eval_call m mcall rho
  | _ => halt Stuck
  end.


End Host.

(** ** Paths through a method table *)

(** The value at the end of the path [keys] from [node]: every key but the
    last has to be bound to an environment, which the next key is looked up
    in. *)
Fixpoint walk (h : heap) (node : addr) (keys : list string) : SEXP :=
  match keys with
  | [] => ENVSXP node
  | k :: ks =>
      match Rf_findVarInFrame h node k, ks with
      | ENVSXP n, _ => walk h n ks
      | v, [] => v
      | _, _ => R_UnboundValue
      end
  end.

(** [keys] is a tuple of keys that the signature admits from position [i]
    on: one key per position, each a class of the argument at that position
    or [ANY], and no more keys than positions. *)
Fixpoint admissible (S_ : signature_t) (i : nat) (keys : list string) : bool :=
  match keys with
  | [] => true
  | k :: ks =>
      match S_ !! i with
      | Some classes =>
          (bool_decide (k ∈ classes) || bool_decide (k = ANY_sym))
          && admissible S_ (S i) ks
      | None => false
      end
  end.

(** The keys the resolver can ask a table for, given the signature. *)
Definition dispatch_key (S_ : signature_t) (k : string) : Prop :=
  k = ANY_sym ∨ Exists (λ classes, k ∈ classes) S_.

#[global] Instance dispatch_key_dec (S_ : signature_t) (k : string) :
  Decision (dispatch_key S_ k).
Proof. unfold dispatch_key. apply _. Defined.

(** ** Concrete tables, generics and call frames *)

Module Examples.

Definition mk_method (k : nat) : SEXP :=
  CLOSXP {| FORMALS := ["x"; "y"]; BODY := k |} [].
Definition m1 := mk_method 1.
Definition m2 := mk_method 2.
Definition m3 := mk_method 3.

(** The table [{dog: {cat: m1, ANY: m2}, ANY: {ANY: m3}}]. *)
Definition speak_heap : heap :=
  {[ 0 := {[ "dog" := ENVSXP 1; "ANY" := ENVSXP 2 ]};
     1 := {[ "cat" := m1; "ANY" := m2 ]};
     2 := {[ "ANY" := m3 ]} ]}.

Definition mk_generic (methods : SEXP) : SEXP :=
  CLOSXP {| FORMALS := ["x"; "y"]; BODY := 0 |}
    [("class", STRSXP ["R7_generic"; "function"]);
     ("name", STRSXP ["speak"]);
     ("dispatch_args", STRSXP ["x"; "y"]);
     ("methods", methods)].
Definition speak : SEXP := mk_generic (ENVSXP 0).

(** A method registered one level too high: [{dog: m1}] under a generic
    with two dispatch arguments. *)
Definition shallow_heap : heap := {[ 0 := {[ "dog" := m1 ]} ]}.

(** A table whose only child is the table itself. *)
Definition cyclic_heap : heap := {[ 0 := {[ "dog" := ENVSXP 0 ]} ]}.

(** Objects carry their class list in the class attribute; the collaborator
    of the examples returns it. *)
Definition object (klass : list string) : SEXP :=
  VECSXP [] [("class", STRSXP klass)].
Definition ex_obj_dispatch (v : SEXP) : outcome (list string) :=
  match Rf_getAttrib v "class" with
  | STRSXP k => Ret k
  | _ => Raise "obj_dispatch"
  end.

(** A super-shim: the true value and the class list to dispatch on. *)
Definition super (true_val : SEXP) (cl : list string) : SEXP :=
  VECSXP [true_val; STRSXP cl] [("class", STRSXP ["R7_super"])].

(** Expressions are calls of constant functions named after what they
    return. *)
Definition ex_eval_code (code env : SEXP) : outcome SEXP :=
  match code with
  | LANGSXP [SYMSXP "a_dog"] => Ret (object ["dog"; "animal"])
  | LANGSXP [SYMSXP "a_cat"] => Ret (object ["cat"; "animal"])
  | LANGSXP [SYMSXP "a_bird"] => Ret (object ["bird"; "animal"])
  | LANGSXP [SYMSXP "super_dog"] =>
      Ret (super (object ["dog"; "animal"]) ["animal"])
  | _ => Raise "eval"
  end.

Definition ex_method_lookup_error (name args : SEXP) (s : signature_t) : outcome SEXP :=
  Raise "Can't find method for generic".

(** The method is applied by the host; the examples stop at the call. *)
Definition ex_apply_closure (m : SEXP) (args : list cell) (envir : addr) : M SEXP :=
  mret m.

Definition thunk (f : string) : promise :=
  Promise R_UnboundValue (LANGSXP [SYMSXP f]) (ENVSXP 20).

(** The frame of a call [speak(x, y)], at address 10. *)
Definition call_world (x y : SEXP) (ps : gmap addr promise) : world :=
  World (<[10 := {[ "x" := x; "y" := y ]}]> speak_heap) ps [].

Definition w_dog_cat : world :=
  call_world (PROMSXP 0) (PROMSXP 1) {[ 0 := thunk "a_dog"; 1 := thunk "a_cat" ]}.
Definition w_super_cat : world :=
  call_world (PROMSXP 0) (PROMSXP 1) {[ 0 := thunk "super_dog"; 1 := thunk "a_cat" ]}.
Definition w_dog_missing : world :=
  call_world (PROMSXP 0) R_MissingArg {[ 0 := thunk "a_dog" ]}.

(** The signature builder run on the frame of a call of [speak]. *)
Definition built (w : world) : outcome (signature_t * list cell) * world :=
  build_signature (pure_thunks ex_eval_code) ex_obj_dispatch speak 10 w.

Definition promise_cell (p : addr) : cell := Cell (PROMSXP p) R_NilValue.

(** A call whose second argument raises an error when it is evaluated. *)
Definition w_dog_boom : world :=
  call_world (PROMSXP 0) (PROMSXP 1) {[ 0 := thunk "a_dog"; 1 := thunk "boom" ]}.

(** The same frame once the first argument has been processed. *)
Definition w_dog_boom_x : world :=
  World (envs w_dog_boom)
    {[ 0 := Promise (object ["dog"; "animal"]) (LANGSXP [SYMSXP "a_dog"]) R_NilValue;
       1 := thunk "boom" ]}
    [EvForce 0; EvObjDispatch (object ["dog"; "animal"])].

(** A call whose first argument was forced before the dispatch. *)
Definition forced (v : SEXP) : promise :=
  Promise v (LANGSXP [SYMSXP "boom"]) R_NilValue.
Definition w_forced_cat : world :=
  call_world (PROMSXP 0) (PROMSXP 1)
    {[ 0 := forced (object ["dog"; "animal"]); 1 := thunk "a_cat" ]}.

(** Arguments that do something when they are evaluated: the expression
    [register_bird()] registers the method [m4] for (dog, bird) in the table
    of [speak] and returns a bird. *)
Definition m4 := mk_method 4.
Definition ex_eval_effect (code env : SEXP) : M SEXP :=
  match code with
  | LANGSXP [SYMSXP "register_bird"] =>
      λ w, (Ret (object ["bird"; "animal"]),
            World (<[1 := {[ "cat" := m1; "ANY" := m2; "bird" := m4 ]}]> (envs w))
              (proms w) (trace w))
  | _ => pure_thunks ex_eval_code code env
  end.
Definition w_dog_register : world :=
  call_world (PROMSXP 0) (PROMSXP 1)
    {[ 0 := thunk "a_dog"; 1 := thunk "register_bird" ]}.

(** A generic that declares no dispatch argument, and one that declares one
    more than it has formals. *)
Definition mk_generic_on (dispatch_args : list string) : SEXP :=
  CLOSXP {| FORMALS := ["x"; "y"]; BODY := 0 |}
    [("class", STRSXP ["R7_generic"; "function"]);
     ("name", STRSXP ["speak"]);
     ("dispatch_args", STRSXP dispatch_args);
     ("methods", ENVSXP 0)].

End Examples.

Import Examples.

(** * Properties *)

(** ** The recursion equations *)

Lemma method_rec_eqn h table signature signature_itr :
  method_rec h table signature signature_itr =
  if le_lt_dec (length signature) signature_itr then Ret R_NilValue
  else
    outcome_bind
      (classes_loop (probe h table signature signature_itr)
         (signature !!! signature_itr))
      (fun found =>
         match found with
         | Some val => Ret val
         | None =>
             outcome_bind
               (descend h signature signature_itr
                  (Rf_findVarInFrame h table ANY_sym))
               (fun val =>
                  Ret (if decide (TYPEOF val = CLOSXP_t) then val else R_NilValue))
         end).
Proof.
  rewrite method_rec_equation_1.
  destruct (le_lt_dec _ _).
  - by rewrite method_rec_clause_1_equation_1.
  - by rewrite method_rec_clause_1_equation_2.
Qed.

Lemma resolve_eqn h node S_ i :
  resolve h node S_ i =
  if le_lt_dec (length S_) i then None
  else
    let try := fun c : string =>
      resolve_child (fun n => resolve h n S_ (S i)) (lookup h node c) in
    match resolve_classes try (S_ !!! i) with
    | Some m => Some m
    | None => try ANY_sym
    end.
Proof.
  rewrite resolve_equation_1.
  destruct (le_lt_dec _ _).
  - by rewrite resolve_clause_1_equation_1.
  - by rewrite resolve_clause_1_equation_2.
Qed.

Lemma resolve_leaf_only_eqn h node S_ i :
  resolve_leaf_only h node S_ i =
  if le_lt_dec (length S_) i then None
  else
    let try := fun c : string =>
      resolve_child_leaf (bool_decide (S i = length S_))
        (fun n => resolve_leaf_only h n S_ (S i)) (lookup h node c) in
    match resolve_classes try (S_ !!! i) with
    | Some m => Some m
    | None => try ANY_sym
    end.
Proof.
  rewrite resolve_leaf_only_equation_1.
  destruct (le_lt_dec _ _).
  - by rewrite resolve_leaf_only_clause_1_equation_1.
  - by rewrite resolve_leaf_only_clause_1_equation_2.
Qed.

(** ** Interning a class name *)

Lemma Rf_install_valid (name : string) : valid_name name → Rf_install name = Ret name.
Proof.
  intros [Hne Hlen]. unfold Rf_install.
  by rewrite decide_False, decide_True by done.
Qed.

Lemma Rf_install_Ret (name klass : string) :
  Rf_install name = Ret klass → klass = name ∧ valid_name name.
Proof.
  unfold Rf_install, valid_name.
  destruct (decide (name = "")); [done|].
  destruct (decide _); [|done]. by intros [= <-].
Qed.

(** Interning raises or returns the name; it does nothing else. *)
Lemma Rf_install_cases (name : string) :
  (valid_name name ∧ Rf_install name = Ret name) ∨
  (¬ valid_name name ∧ ∃ msg, Rf_install name = Raise msg).
Proof.
  destruct (decide (valid_name name)) as [Hv|Hv].
  - left. split; [done|by apply Rf_install_valid].
  - right. split; [done|]. unfold Rf_install, valid_name in *.
    destruct (decide (name = "")); [eauto|].
    destruct (decide _); [|eauto]. destruct Hv. done.
Qed.

(** The wildcard is a symbol already: probing it is looking it up. *)
Lemma probe_ANY h table signature i :
  probe h table signature i ANY_sym
  = descend h signature i (Rf_findVarInFrame h table ANY_sym).
Proof. reflexivity. Qed.

Lemma probe_valid h table signature i name :
  valid_name name →
  probe h table signature i name
  = descend h signature i (Rf_findVarInFrame h table name).
Proof. intros Hv. unfold probe. by rewrite Rf_install_valid. Qed.

(** ** The loop over the classes of one argument *)

Lemma classes_loop_closure pr classes val :
  classes_loop pr classes = Ret (Some val) → TYPEOF val = CLOSXP_t.
Proof.
  induction classes as [|k rest IH]; simpl; [done|].
  destruct (pr k) as [v| | |]; simpl; try done.
  destruct (decide _); [|done]. by intros [= <-].
Qed.

(** The loop returns the probe of the first class whose probe is a closure,
    when the probes before it return something else. *)
Lemma classes_loop_first pr pre klass post m :
  Forall (λ k, ∃ v, pr k = Ret v ∧ TYPEOF v ≠ CLOSXP_t) pre →
  pr klass = Ret m → TYPEOF m = CLOSXP_t →
  classes_loop pr (pre ++ klass :: post) = Ret (Some m).
Proof.
  induction 1 as [|k pre (v & Hk & Hv) _ IH]; simpl; intros Hm Hc.
  - rewrite Hm. simpl. by rewrite decide_True.
  - rewrite Hk. simpl. rewrite decide_False by done. by apply IH.
Qed.

Lemma classes_loop_Some (pr : string → outcome SEXP) (classes : list string) (v : SEXP) :
  classes_loop pr classes = Ret (Some v) →
  ∃ k, k ∈ classes ∧ pr k = Ret v ∧ TYPEOF v = CLOSXP_t.
Proof.
  induction classes as [|c rest IH]; simpl; [done|].
  destruct (pr c) as [x| | |] eqn:Ec; simpl; try done.
  destruct (decide _) as [Hc|Hc].
  - intros [= <-]. exists c. split; [by left|done].
  - intros (k & Hk & Hv)%IH. exists k. split; [by right|done].
Qed.

Lemma classes_loop_None (pr : string → outcome SEXP) (classes : list string) (k : string) :
  classes_loop pr classes = Ret None → k ∈ classes →
  ∃ v, pr k = Ret v ∧ TYPEOF v ≠ CLOSXP_t.
Proof.
  induction classes as [|c rest IH]; simpl; [by intros _ ?%elem_of_nil|].
  destruct (pr c) as [x| | |] eqn:Ec; simpl; try done.
  destruct (decide _) as [Hc|Hc]; [done|].
  intros Hn [->|Hk]%elem_of_cons; [eauto|by apply IH].
Qed.

Lemma classes_loop_agree (pr pr' : string → outcome SEXP) (classes : list string) :
  (∀ k, k ∈ classes → pr k = pr' k) →
  classes_loop pr classes = classes_loop pr' classes.
Proof.
  induction classes as [|c rest IH]; simpl; intros H; [done|].
  rewrite <- (H c) by (by left).
  destruct (pr c) as [x| | |]; simpl; try done.
  destruct (decide _); [done|]. apply IH. intros k Hk. apply H. by right.
Qed.

(** A call of the resolver returns or raises; when it returns, it returns a
    closure or [R_NilValue]; when it raises, a class name of the signature
    could not be interned. *)
Lemma method_rec_outcome_aux (n : nat) :
  ∀ (h : heap) (table : addr) (signature : signature_t) (i : nat),
  length signature - i ≤ n →
  (∃ m, method_rec h table signature i = Ret m ∧
        (TYPEOF m = CLOSXP_t ∨ m = R_NilValue)) ∨
  (∃ msg, method_rec h table signature i = Raise msg ∧ ¬ valid_signature signature).
Proof.
  induction n as [|n IH]; intros h table signature i Hn;
    rewrite method_rec_eqn; destruct (le_lt_dec _ _) as [Hle|Hlt];
    try (left; eauto; fail); try lia.
  assert (Hd : ∀ val,
    (∃ m, descend h signature i val = Ret m ∧
          (TYPEOF m = CLOSXP_t ↔ TYPEOF m = CLOSXP_t)) ∨
    (∃ msg, descend h signature i val = Raise msg ∧ ¬ valid_signature signature)).
  { intros val. destruct val; try (left; eexists; split; [reflexivity|done]).
    simpl. destruct (IH h a signature (S i)) as [(m & -> & _)|(msg & -> & Hv)]; [lia|..].
    - left. eauto.
    - right. eauto. }
  destruct (lookup_lt_is_Some_2 signature i Hlt) as [classes Hi].
  rewrite (list_lookup_total_correct _ _ _ Hi).
  assert (Hcl : Forall valid_name classes ∨ ¬ valid_signature signature).
  { destruct (decide (Forall valid_name classes)) as [?|Hnv]; [by left|right].
    intros Hv. apply Hnv. unfold valid_signature in Hv.
    rewrite Forall_forall in Hv. apply Hv. by eapply list_elem_of_lookup_2. }
  assert (Hloop :
    (∃ r, classes_loop (probe h table signature i) classes = Ret r) ∨
    (∃ msg, classes_loop (probe h table signature i) classes = Raise msg ∧
            ¬ valid_signature signature)).
  { assert (Hsub : ∀ k, k ∈ classes → k ∈ classes) by done.
    revert Hsub. generalize classes at 1 3 4 as l.
    induction l as [|k l IHl]; intros Hsub; simpl; [left; eauto|].
    unfold probe at 1 3.
    destruct (Rf_install_cases k) as [[Hk ->]|[Hk (msg & ->)]]; simpl.
    - destruct (Hd (Rf_findVarInFrame h table k)) as [(m & -> & _)|(msg & -> & Hv)];
        simpl; [|right; eauto].
      destruct (decide _); [left; eauto|].
      apply IHl. intros k' Hk'. apply Hsub. by right.
    - right. exists msg. split; [done|]. intros Hv. apply Hk.
      unfold valid_signature in Hv. rewrite Forall_forall in Hv.
      specialize (Hv classes (list_elem_of_lookup_2 _ _ _ Hi)).
      rewrite Forall_forall in Hv. apply Hv, Hsub. by left. }
  destruct Hloop as [(r & Hr)|(msg & Hr & Hv)]; rewrite Hr; simpl; [|right; eauto].
  destruct r as [val|].
  - left. exists val. split; [done|]. left. by eapply classes_loop_closure.
  - destruct (Hd (Rf_findVarInFrame h table ANY_sym)) as [(m & -> & _)|(msg & -> & Hv)];
      simpl; [|right; eauto].
    left. eexists. split; [reflexivity|]. destruct (decide _); [by left|by right].
Qed.

Lemma method_rec_outcome (h : heap) (table : addr) (signature : signature_t) (i : nat) :
  (∃ m, method_rec h table signature i = Ret m ∧
        (TYPEOF m = CLOSXP_t ∨ m = R_NilValue)) ∨
  (∃ msg, method_rec h table signature i = Raise msg ∧ ¬ valid_signature signature).
Proof. apply method_rec_outcome_aux with (n := length signature). lia. Qed.

(** The resolver yields a closure or [R_NilValue], nothing else. *)
Lemma method_rec_closure_or_nil h table signature signature_itr m :
  method_rec h table signature signature_itr = Ret m →
  TYPEOF m = CLOSXP_t ∨ m = R_NilValue.
Proof.
  intros Hm. destruct (method_rec_outcome h table signature signature_itr)
    as [(m' & Hm' & H)|(msg & Hr & _)]; congruence.
Qed.

Lemma method_rec_valid h table signature i :
  valid_signature signature → ∃ m, method_rec h table signature i = Ret m.
Proof.
  intros Hv. destruct (method_rec_outcome h table signature i)
    as [(m & Hm & _)|(msg & _ & Hn)]; [eauto|done].
Qed.

Lemma method_rec_past_end (h : heap) (table : addr) (signature : signature_t) (i : nat) :
  length signature ≤ i → method_rec h table signature i = Ret R_NilValue.
Proof.
  intros Hle. rewrite method_rec_eqn. destruct (le_lt_dec _ _); [done|lia].
Qed.

(** ** The resolver and the rule of the design document *)

Lemma resolve_classes_Some (try : string → option SEXP) (classes : list string) (m : SEXP) :
  resolve_classes try classes = Some m → ∃ c, try c = Some m.
Proof.
  induction classes as [|c rest IH]; simpl; [done|].
  destruct (try c) as [x|] eqn:E; [|done]. intros [= <-]. eauto.
Qed.

(** Probing agrees with one step of the pseudo-code wherever the probe
    returns. *)
Lemma loop_agrees (pr : string → outcome SEXP) (try : string → option SEXP)
    (classes : list string) (r : option SEXP) :
  (∀ c v, pr c = Ret v →
          try c = if decide (TYPEOF v = CLOSXP_t) then Some v else None) →
  classes_loop pr classes = Ret r → resolve_classes try classes = r.
Proof.
  intros H. induction classes as [|c rest IH]; simpl; [by intros [= <-]|].
  destruct (pr c) as [v| | |] eqn:Ec; simpl; try done.
  rewrite (H c v Ec). destruct (decide _); [by intros [= <-]|done].
Qed.

Lemma method_rec_resolve_aux (n : nat) :
  ∀ (h : heap) (table : addr) (signature : signature_t) (i : nat),
  length signature - i ≤ n →
  (∀ m, resolve h table signature i = Some m → TYPEOF m = CLOSXP_t) ∧
  (∀ m, method_rec h table signature i = Ret m →
        m = absent_or (resolve h table signature i)).
Proof.
  induction n as [|n IH]; intros h table signature i Hn;
    rewrite method_rec_eqn, resolve_eqn;
    destruct (le_lt_dec _ _) as [Hle|Hlt]; try lia;
    try (split; [done|by intros m [= <-]]).
  set (try := λ c, resolve_child (λ n, resolve h n signature (S i)) (lookup h table c)).
  assert (Htry : ∀ c m, try c = Some m → TYPEOF m = CLOSXP_t).
  { intros c m. unfold try, lookup.
    destruct (Rf_findVarInFrame h table c) as [| | |t'| | | | | | |]; simpl; try done.
    - apply IH. lia.
    - by intros [= <-]. }
  assert (Hdesc : ∀ c v,
    descend h signature i (Rf_findVarInFrame h table c) = Ret v →
    try c = if decide (TYPEOF v = CLOSXP_t) then Some v else None).
  { intros c v. unfold try, lookup.
    destruct (Rf_findVarInFrame h table c) as [| | |t'| | | | | | |]; simpl;
      try (by intros [= <-]).
    intros Hv. destruct (IH h t' signature (S i)) as [Hclo Heq]; [lia|].
    rewrite (Heq v Hv).
    destruct (resolve h t' signature (S i)) as [m|] eqn:Er; simpl; [|done].
    by rewrite decide_True by eauto. }
  assert (Hprobe : ∀ c v, probe h table signature i c = Ret v →
    try c = if decide (TYPEOF v = CLOSXP_t) then Some v else None).
  { intros c v. unfold probe.
    destruct (Rf_install c) as [k| | |] eqn:Ek; simpl; try done.
    apply Rf_install_Ret in Ek as [-> _]. apply Hdesc. }
  cbv zeta. fold try. split.
  - intros m. destruct (resolve_classes try _) as [m'|] eqn:Ec.
    + intros [= <-]. apply resolve_classes_Some in Ec as [c Hc]. eauto.
    + apply Htry.
  - intros m.
    destruct (classes_loop _ _) as [r| | |] eqn:El; simpl; try done.
    rewrite (loop_agrees _ try _ _ Hprobe El).
    destruct r as [val|]; [by intros [= <-]|].
    destruct (descend _ _ _ _) as [v| | |] eqn:Ed; simpl; try done.
    intros [= <-]. rewrite (Hdesc _ _ Ed). by destruct (decide _).
Qed.

(** C1, as the claim words it, fails: on the table
    [{dog: {cat: m1, ANY: m2}, ANY: {ANY: m3}}] and a signature whose first
    class name is empty, the rule of the design document selects [m3]
    through [ANY], but [Rf_install] refuses the empty name and the resolver
    raises. *)
Lemma empty_class_name_raises :
  resolve speak_heap 0 [[""]; ["cat"]] 0 = Some m3 ∧
  method_rec speak_heap 0 [[""]; ["cat"]] 0
    = Raise "attempt to use zero-length variable name" ∧
  method_rec speak_heap 0 [[""]; ["cat"]] 0
    ≠ Ret (absent_or (resolve speak_heap 0 [[""]; ["cat"]] 0)).
Proof. repeat split; by vm_compute. Qed.

(** C1, amended. For every method table and every signature, whenever
    [method_rec] started at position 0 returns, it returns exactly what the
    recursive rule of the design document selects: the classes of each
    argument are probed in order, child nodes are descended into and child
    methods accepted, [ANY] is probed only after every class of that
    argument failed, and the result is absent ([R_NilValue]) when the rule
    finds no method.  It does return when every class name of the signature
    can be interned; otherwise it may raise the error of [Rf_install].
    What the rule finds is always a closure. *)
Theorem method_rec_is_resolve (h : heap) (table : addr) (signature : signature_t) :
  (∀ m, method_rec h table signature 0 = Ret m →
        m = absent_or (resolve h table signature 0)) ∧
  (valid_signature signature →
     method_rec h table signature 0 = Ret (absent_or (resolve h table signature 0))) ∧
  (∀ msg, method_rec h table signature 0 = Raise msg → ¬ valid_signature signature) ∧
  (∀ m, resolve h table signature 0 = Some m → TYPEOF m = CLOSXP_t).
Proof.
  destruct (method_rec_resolve_aux (length signature) h table signature 0)
    as [Hclo Heq]; [lia|].
  split; [done|]. split; [|split; [|done]].
  - intros Hv. destruct (method_rec_valid h table signature 0 Hv) as [m Hm].
    by rewrite Hm, (Heq m Hm).
  - intros msg Hr. destruct (method_rec_outcome h table signature 0)
      as [(m & Hm & _)|(msg' & _ & Hn)]; [congruence|done].
Qed.

(** ** Methods above the last level *)

Lemma method_rec_first_closure (h : heap) (table : addr) (signature : signature_t)
    (i : nat) (pre : list string) (klass : string) (post : list string) :
  signature !! i = Some (pre ++ klass :: post) →
  Forall (λ k, ∃ v, probe h table signature i k = Ret v ∧ TYPEOF v ≠ CLOSXP_t) pre →
  valid_name klass →
  TYPEOF (Rf_findVarInFrame h table klass) = CLOSXP_t →
  method_rec h table signature i = Ret (Rf_findVarInFrame h table klass).
Proof.
  intros Hi Hpre Hk Hm.
  assert (Hp : probe h table signature i klass = Ret (Rf_findVarInFrame h table klass)).
  { rewrite probe_valid by done. by destruct (Rf_findVarInFrame h table klass). }
  rewrite method_rec_eqn.
  destruct (le_lt_dec _ _) as [Hle|_].
  - apply lookup_lt_Some in Hi. lia.
  - rewrite (list_lookup_total_correct _ _ _ Hi).
    by rewrite (classes_loop_first _ _ _ _ _ Hpre Hp Hm).
Qed.

(** C2, as the design document words it, fails: with two dispatch arguments
    and the table [{dog: m1}], the method bound at the first level is
    returned, where the reading that ignores it finds nothing. *)
Lemma method_above_leaf_is_returned :
  Rf_findVarInFrame shallow_heap 0 "dog" = m1 ∧
  0 < length [["dog"; "animal"]; ["cat"; "animal"]] - 1 ∧
  method_rec shallow_heap 0 [["dog"; "animal"]; ["cat"; "animal"]] 0 = Ret m1 ∧
  resolve_leaf_only shallow_heap 0 [["dog"; "animal"]; ["cat"; "animal"]] 0 = None ∧
  method_rec shallow_heap 0 [["dog"; "animal"]; ["cat"; "animal"]] 0 ≠
    Ret (absent_or
           (resolve_leaf_only shallow_heap 0 [["dog"; "animal"]; ["cat"; "animal"]] 0)).
Proof.
  repeat split; [vm_compute; lia | by vm_compute ..].
Qed.

(** C2, amended. The resolver does not look at the depth: at any position
    [i] of the signature, the first class of [S[i]] whose probe yields a
    closure decides, the probes of the classes before it having returned
    something else, and a closure bound under that class in the node is
    returned as it is, also when [i] is not the last position.  Nothing is
    probed at a position past the end of the signature. *)
Theorem method_rec_accepts_method_at_any_depth (h : heap) (table : addr)
    (signature : signature_t) (i : nat) (pre : list string) (klass : string)
    (post : list string) (m : SEXP) :
  signature !! i = Some (pre ++ klass :: post) →
  Forall (λ k, ∃ v, probe h table signature i k = Ret v ∧ TYPEOF v ≠ CLOSXP_t) pre →
  valid_name klass →
  Rf_findVarInFrame h table klass = m →
  TYPEOF m = CLOSXP_t →
  method_rec h table signature i = Ret m ∧
  ∀ j, method_rec h table signature (length signature + j) = Ret R_NilValue.
Proof.
  intros Hi Hpre Hk <- Hm. split.
  - by eapply method_rec_first_closure.
  - intros j. apply method_rec_past_end. lia.
Qed.

Lemma valid_dog : valid_name "dog".
Proof. by apply (bool_decide_unpack (valid_name "dog")). Qed.

Lemma method_rec_accepts_method_at_any_depth_witness :
  method_rec shallow_heap 0 [["dog"; "animal"]; ["cat"; "animal"]] 0 = Ret m1 ∧
  ∀ j, method_rec shallow_heap 0 [["dog"; "animal"]; ["cat"; "animal"]]
         (length [["dog"; "animal"]; ["cat"; "animal"]] + j) = Ret R_NilValue.
Proof.
  apply (method_rec_accepts_method_at_any_depth shallow_heap 0
           [["dog"; "animal"]; ["cat"; "animal"]] 0 [] "dog" ["animal"] m1).
  - reflexivity.
  - constructor.
  - exact valid_dog.
  - vm_compute. reflexivity.
  - reflexivity.
Defined.

(** ** Termination *)

Lemma classes_loop_fuel_total pf pr classes :
  (∀ k, pf k = Some (pr k)) →
  classes_loop_fuel pf classes = Some (classes_loop pr classes).
Proof.
  intros H. induction classes as [|k rest IH]; simpl; [done|].
  rewrite H. destruct (pr k) as [v| | |]; simpl; try done.
  by destruct (decide _).
Qed.

Lemma method_rec_fuel_enough (fuel : nat) :
  ∀ (h : heap) (table : addr) (signature : signature_t) (i : nat),
  length signature - i < fuel →
  method_rec_fuel fuel h table signature i = Some (method_rec h table signature i).
Proof.
  induction fuel as [|fuel IH]; intros h table signature i Hf; [lia|].
  rewrite method_rec_eqn. simpl.
  destruct (le_lt_dec _ _) as [Hle|Hlt]; [done|].
  assert (Hd : ∀ val,
    (λ val, match val with
            | ENVSXP t' => method_rec_fuel fuel h t' signature (S i)
            | _ => Some (Ret val)
            end) val = Some (descend h signature i val)).
  { intros val. destruct val; try done. apply IH. lia. }
  rewrite (classes_loop_fuel_total _ (probe h table signature i)).
  2:{ intros k. unfold probe. destruct (Rf_install k); simpl; first [done|apply Hd]. }
  destruct (classes_loop _ _) as [[val|]| | |]; simpl; try done.
  rewrite Hd. by destruct (descend _ _ _ _).
Qed.

(** C10. [method_rec] terminates on every table, cyclic ones included: run
    with a budget of nested calls, it never needs more than one call per
    remaining position of the signature plus the call that finds the
    iterator at the end, because each recursive call is made at
    [signature_itr + 1] and a call whose iterator has reached the length of
    the signature returns [R_NilValue] at once. *)
Theorem method_rec_depth_bounded (h : heap) (table : addr) (signature : signature_t)
    (signature_itr : nat) :
  method_rec_fuel (S (length signature - signature_itr)) h table signature signature_itr
    = Some (method_rec h table signature signature_itr) ∧
  (∀ fuel j, method_rec_fuel (S fuel) h table signature (length signature + j)
             = Some (Ret R_NilValue)) ∧
  (∀ j, method_rec h table signature (length signature + j) = Ret R_NilValue).
Proof.
  split; [apply method_rec_fuel_enough; lia|]. split.
  - intros fuel j. simpl. destruct (le_lt_dec _ _); [done|lia].
  - intros j. apply method_rec_past_end. lia.
Qed.

(** On the table that is its own child the walk ends after one call per
    class list and one more, and a smaller budget is not enough. *)
Example method_rec_cyclic :
  method_rec cyclic_heap 0 [["dog"]; ["dog"]; ["dog"]] 0 = Ret R_NilValue ∧
  method_rec_fuel 4 cyclic_heap 0 [["dog"]; ["dog"]; ["dog"]] 0 = Some (Ret R_NilValue) ∧
  method_rec_fuel 3 cyclic_heap 0 [["dog"]; ["dog"]; ["dog"]] 0 = None.
Proof. by vm_compute. Qed.

(** ** Method lookup *)

Ltac run_M :=
  repeat (unfold method_, R7_method_lookup_error, Rf_error, host, halt, log,
            get_world, mbind, M_bind, mret, M_ret, from_option; simpl).

Section Lookup.

Variable method_lookup_error : SEXP → SEXP → signature_t → outcome SEXP.

Lemma lookup_error_never_returns generic signature v :
  lookup_error_outcome method_lookup_error generic signature ≠ Ret v.
Proof. unfold lookup_error_outcome. by destruct (method_lookup_error _ _ _). Qed.

Lemma method_on_table generic signature error_ e t w m :
  Rf_inherits generic "R7_generic" = true →
  Rf_getAttrib generic "methods" = ENVSXP t →
  Rf_asInteger error_ = Some e →
  method_rec (envs w) t signature 0 = Ret m →
  method_ method_lookup_error generic signature error_ w =
    if negb (e =? 0)%Z && is_R_NilValue m then
      (lookup_error_outcome method_lookup_error generic signature,
       World (envs w) (proms w)
         (trace w ++ [EvLookupError (Rf_getAttrib generic "name")
                        (Rf_getAttrib generic "dispatch_args") signature]))
    else (Ret m, w).
Proof.
  intros Hg Ht He Hm. unfold lookup_error_outcome. run_M.
  rewrite Hg, Ht. simpl. rewrite Hm, He. simpl.
  destruct (negb (e =? 0)%Z && is_R_NilValue _); [|done].
  simpl. by destruct (method_lookup_error _ _ _).
Qed.

(** An error of the resolver leaves [method_] before the flag is read. *)
Lemma method_on_table_raise generic signature error_ t w msg :
  Rf_inherits generic "R7_generic" = true →
  Rf_getAttrib generic "methods" = ENVSXP t →
  method_rec (envs w) t signature 0 = Raise msg →
  method_ method_lookup_error generic signature error_ w = (Raise msg, w).
Proof. intros Hg Ht Hm. run_M. rewrite Hg, Ht. simpl. by rewrite Hm. Qed.

(** C3, amended. For a generic (an object of class [R7_generic] whose method
    table is an environment) and any signature on which the resolver
    returns, which it does when every class name can be interned: with
    [error = TRUE], [method_] returns the method found by the resolver, a
    closure; when the resolver yields absent it calls the collaborator
    [method_lookup_error] with the generic's name, its dispatch arguments
    and the signature, and does not return, whatever the collaborator does.
    With [error = FALSE] it returns what the resolver yields, absent
    included, and calls nothing.  When the resolver raises, [method_] raises
    the same error whatever the flag, and calls nothing. *)
Theorem method_error_flag (generic : SEXP) (signature : signature_t) (t : addr) (w : world) :
  Rf_inherits generic "R7_generic" = true →
  Rf_getAttrib generic "methods" = ENVSXP t →
  (∀ m, method_rec (envs w) t signature 0 = Ret m →
     (m ≠ R_NilValue →
        method_ method_lookup_error generic signature (Rf_ScalarLogical 1) w = (Ret m, w) ∧
        TYPEOF m = CLOSXP_t) ∧
     (m = R_NilValue →
        method_ method_lookup_error generic signature (Rf_ScalarLogical 1) w =
          (lookup_error_outcome method_lookup_error generic signature,
           World (envs w) (proms w)
             (trace w ++ [EvLookupError (Rf_getAttrib generic "name")
                            (Rf_getAttrib generic "dispatch_args") signature])) ∧
        ∀ v w', method_ method_lookup_error generic signature (Rf_ScalarLogical 1) w
                ≠ (Ret v, w')) ∧
     method_ method_lookup_error generic signature (Rf_ScalarLogical 0) w = (Ret m, w)) ∧
  (∀ msg, method_rec (envs w) t signature 0 = Raise msg →
     ∀ error_, method_ method_lookup_error generic signature error_ w = (Raise msg, w)) ∧
  (valid_signature signature → ∃ m, method_rec (envs w) t signature 0 = Ret m).
Proof.
  intros Hg Ht. split; [|split].
  - intros m Hm.
    pose proof (method_on_table generic signature (Rf_ScalarLogical 1) 1 t w m
                  Hg Ht eq_refl Hm) as H1.
    pose proof (method_on_table generic signature (Rf_ScalarLogical 0) 0 t w m
                  Hg Ht eq_refl Hm) as H0.
    simpl in H1, H0.
    split; [|split].
    + intros Hne. destruct (method_rec_closure_or_nil _ _ _ _ _ Hm) as [Hc|Hn]; [|done].
      split; [|done]. rewrite H1. by destruct m.
    + intros ->. rewrite H1. simpl. split; [done|].
      intros v w' [= Hv _]. by eapply lookup_error_never_returns.
    + done.
  - intros msg Hm error_. by apply method_on_table_raise with (t := t).
  - apply method_rec_valid.
Qed.

(** C7. A lookup with [error = FALSE] leaves the world as it found it, the
    method table and every other environment, the promises and the record of
    calls to the host, and a second lookup for the same generic and
    signature ends the same way as the first.  Whatever the error flag is,
    a lookup changes no environment and no promise. *)
Theorem method_lookup_is_pure (generic : SEXP) (signature : signature_t) (w : world) :
  (method_ method_lookup_error generic signature (Rf_ScalarLogical 0) w).2 = w ∧
  method_ method_lookup_error generic signature (Rf_ScalarLogical 0)
    (method_ method_lookup_error generic signature (Rf_ScalarLogical 0) w).2
  = method_ method_lookup_error generic signature (Rf_ScalarLogical 0) w ∧
  ∀ error_,
    envs (method_ method_lookup_error generic signature error_ w).2 = envs w ∧
    proms (method_ method_lookup_error generic signature error_ w).2 = proms w.
Proof.
  assert (H : (method_ method_lookup_error generic signature (Rf_ScalarLogical 0) w).2 = w).
  { run_M. destruct (Rf_inherits generic "R7_generic"); simpl; [|done].
    destruct (Rf_getAttrib generic "methods"); try done.
    by destruct (method_rec _ _ _ _). }
  split; [done|]. split; [by rewrite H|].
  intros error_. run_M.
  destruct (Rf_inherits generic "R7_generic"); simpl; [|done].
  destruct (Rf_getAttrib generic "methods"); try done.
  destruct (method_rec _ _ _ _) as [m| | |]; simpl; try done.
  destruct (Rf_asInteger error_) as [e|]; simpl; [|done].
  destruct (negb (e =? 0)%Z && is_R_NilValue _); simpl; [|done].
  by destruct (method_lookup_error _ _ _).
Qed.

(** C8. For a generic whose [methods] attribute is not an environment,
    [method_] raises the error "Corrupt R7_generic" whatever the signature,
    the error flag and the tables are; neither the resolver nor the
    collaborator is reached and the world is left as it was. *)
Theorem method_corrupt_table (generic : SEXP) (signature : signature_t) (error_ : SEXP)
    (w : world) :
  Rf_inherits generic "R7_generic" = true →
  TYPEOF (Rf_getAttrib generic "methods") ≠ ENVSXP_t →
  method_ method_lookup_error generic signature error_ w =
    (Raise "Corrupt R7_generic: @methods isn't an environment", w).
Proof.
  intros Hg Ht. run_M. rewrite Hg. simpl.
  by destruct (Rf_getAttrib generic "methods").
Qed.

(** C9. For a first argument that does not inherit from [R7_generic],
    [method_] returns [R_NilValue] at once, for every signature and every
    error flag, [TRUE] included: no error is raised and the collaborator is
    not called. *)
Theorem method_not_generic (generic : SEXP) (signature : signature_t) (error_ : SEXP)
    (w : world) :
  Rf_inherits generic "R7_generic" = false →
  method_ method_lookup_error generic signature error_ w = (Ret R_NilValue, w).
Proof. intros Hg. run_M. by rewrite Hg. Qed.

End Lookup.

(** C3, as the claim words it, fails: for a signature with an empty class
    name the lookup neither returns a method nor reports the lookup error
    with [error = TRUE], and with [error = FALSE] it raises instead of
    returning absent; the error is the one of [Rf_install], and the
    collaborator is not called. *)
Lemma method_raises_on_empty_class_name :
  method_ ex_method_lookup_error speak [[""]; ["cat"]] (Rf_ScalarLogical 1)
    (World speak_heap ∅ [])
  = (Raise "attempt to use zero-length variable name", World speak_heap ∅ []) ∧
  method_ ex_method_lookup_error speak [[""]; ["cat"]] (Rf_ScalarLogical 0)
    (World speak_heap ∅ [])
  = (Raise "attempt to use zero-length variable name", World speak_heap ∅ []).
Proof.
  split; by apply (method_on_table_raise ex_method_lookup_error speak _ _ 0).
Qed.

Lemma method_error_flag_witness :
  let g := speak in
  let s := [["fish"]; []] in
  let w := World (delete 2 speak_heap) ∅ [] in
  method_rec (envs w) 0 s 0 = Ret R_NilValue ∧
  method_ ex_method_lookup_error g s (Rf_ScalarLogical 1) w =
    (lookup_error_outcome ex_method_lookup_error g s,
     World (envs w) (proms w)
       (trace w ++ [EvLookupError (Rf_getAttrib g "name")
                      (Rf_getAttrib g "dispatch_args") s])) ∧
  method_ ex_method_lookup_error g s (Rf_ScalarLogical 0) w = (Ret R_NilValue, w).
Proof.
  intros g s w.
  assert (Hm : method_rec (envs w) 0 s 0 = Ret R_NilValue) by (by vm_compute).
  split; [exact Hm|].
  destruct (method_error_flag ex_method_lookup_error g s 0 w eq_refl eq_refl)
    as (Hret & _ & _).
  destruct (Hret R_NilValue Hm) as (_ & Habs & Hfalse).
  split; [exact (proj1 (Habs eq_refl))|exact Hfalse].
Defined.

Lemma method_corrupt_table_witness :
  method_ ex_method_lookup_error (mk_generic (STRSXP ["not a table"]))
    [["dog"]; ["cat"]] (Rf_ScalarLogical 1) (World speak_heap ∅ [])
  = (Raise "Corrupt R7_generic: @methods isn't an environment", World speak_heap ∅ []).
Proof.
  apply (method_corrupt_table ex_method_lookup_error
           (mk_generic (STRSXP ["not a table"]))).
  - reflexivity.
  - simpl. discriminate.
Defined.

Lemma method_not_generic_witness :
  method_ ex_method_lookup_error m1 [["dog"]; ["cat"]] (Rf_ScalarLogical 1)
    (World speak_heap ∅ [])
  = (Ret R_NilValue, World speak_heap ∅ []).
Proof.
  apply (method_not_generic ex_method_lookup_error m1). reflexivity.
Defined.
(** ** The signature builder *)

Lemma bind_Ret {A B} (m : M A) (k : A → M B) (w w' : world) (b : B) :
  (m ≫= k) w = (Ret b, w') →
  ∃ a w1, m w = (Ret a, w1) ∧ k a w1 = (Ret b, w').
Proof.
  unfold mbind, M_bind. destruct (m w) as [[a| | |] w1]; try done. eauto.
Qed.

Lemma forces_app (t1 t2 : list event) : forces (t1 ++ t2) = forces t1 ++ forces t2.
Proof. unfold forces. apply omap_app. Qed.

Section Call.

(** The expressions of the arguments are pure here: evaluating one changes
    nothing, and its value does not depend on when it is evaluated. *)
Variable thunk_value : SEXP → SEXP → outcome SEXP.
Variable obj_dispatch : SEXP → outcome (list string).
Variable method_lookup_error : SEXP → SEXP → signature_t → outcome SEXP.
Variable apply_closure : SEXP → list cell → addr → M SEXP.

(** Evaluating a promise yields [promise_value]; it forces the thunk, once,
    only when the value slot is empty, and touches no other promise. *)
Lemma Rf_eval_promise_spec (p : addr) (w w1 : world) (val : SEXP) :
  Rf_eval_promise (pure_thunks thunk_value) p w = (Ret val, w1) →
  ∃ pr, proms w !! p = Some pr ∧
    promise_value thunk_value w p = Ret val ∧
    envs w1 = envs w ∧
    forces (trace w1) = forces (trace w) ++ (if unforced w p then [p] else []) ∧
    ((unforced w p = false ∧ w1 = w) ∨
     (unforced w p = true ∧
      proms w1 = <[p := Promise val (PRCODE pr) R_NilValue]> (proms w))).
Proof.
  unfold Rf_eval_promise, promise_value, unforced, get_promise.
  unfold mbind, M_bind at 1.
  destruct (proms w !! p) as [pr|] eqn:Hp; [|done].
  destruct (is_unbound (PRVALUE pr)) eqn:Hu.
  - unfold pure_thunks, host, halt, log, set_promise, mbind, M_bind, mret, M_ret.
    simpl. destruct (thunk_value _ _) as [v| | |]; try done.
    simpl. rewrite Hp.
    intros [= <- <-]. exists pr. simpl. rewrite forces_app. simpl.
    repeat split; eauto.
  - unfold mret, M_ret. intros [= <- <-]. exists pr.
    rewrite app_nil_r. repeat split; eauto.
Qed.

Lemma SET_PRVALUE_spec (p : addr) (v : SEXP) (w w1 : world) :
  SET_PRVALUE p v w = (Ret (), w1) →
  ∃ pr, proms w !! p = Some pr ∧
    w1 = World (envs w) (<[p := Promise v (PRCODE pr) (PRENV pr)]> (proms w)) (trace w).
Proof.
  unfold SET_PRVALUE, get_promise, set_promise, mbind, M_bind.
  destruct (proms w !! p) as [pr|]; [|done].
  intros [= <-]. eauto.
Qed.

(** A turn for a formal that is not a dispatch argument: the name is passed,
    tagged with itself, and nothing else happens. *)
Lemma arg_iter_other (envir : addr) (nd i : nat) (name : string) (dc : signature_t)
    (w : world) :
  ¬ i < nd →
  arg_iter (pure_thunks thunk_value) obj_dispatch envir nd i name dc w
  = (Ret (dc, Cell (SYMSXP name) (SYMSXP name)), w).
Proof.
  intros Hi. unfold arg_iter, get_world, mbind, M_bind at 1.
  by rewrite decide_False.
Qed.

(** A turn for a dispatch argument that is missing. *)
Lemma arg_iter_missing (envir : addr) (nd i : nat) (name : string) (dc : signature_t)
    (w : world) :
  i < nd →
  is_missing w (Rf_findVarInFrame (envs w) envir name) = true →
  arg_iter (pure_thunks thunk_value) obj_dispatch envir nd i name dc w
  = (Ret (<[i := ["MISSING"]]> dc, Cell (SYMSXP name) R_NilValue), w).
Proof.
  intros Hi Hm. unfold arg_iter, get_world, mbind, M_bind at 1.
  rewrite decide_True by done.
  unfold is_missing, code_of in Hm.
  destruct (Rf_findVarInFrame (envs w) envir name) as [| |s| |p| | | | | |];
    try done.
  - destruct s; [|done]. done.
  - unfold PRCODE_of, get_promise, mbind, M_bind, mret, M_ret.
    destruct (proms w !! p) as [pr|]; [|done].
    change (is_R_MissingArg (PRCODE pr) = true) in Hm. by rewrite Hm.
Qed.

Lemma arg_iter_dispatch (envir : addr) (nd i : nat) (name : string)
    (dc dc1 : signature_t) (c : cell) (w w1 : world) :
  i < nd →
  arg_iter (pure_thunks thunk_value) obj_dispatch envir nd i name dc w = (Ret (dc1, c), w1) →
  match supplied w envir name with
  | None =>
      is_missing w (Rf_findVarInFrame (envs w) envir name) = true ∧
      dc1 = <[i := ["MISSING"]]> dc ∧ c = Cell (SYMSXP name) R_NilValue ∧ w1 = w
  | Some p =>
      ∃ val tv cls pr pr1,
        proms w !! p = Some pr ∧
        promise_value thunk_value w p = Ret val ∧
        memo_value val = Some tv ∧
        classes_for obj_dispatch val = Ret cls ∧
        dc1 = <[i := cls]> dc ∧ c = Cell (PROMSXP p) R_NilValue ∧
        envs w1 = envs w ∧
        proms w1 = <[p := pr1]> (proms w) ∧
        PRVALUE pr1 = tv ∧ PRCODE pr1 = PRCODE pr ∧
        forces (trace w1) = forces (trace w) ++ (if unforced w p then [p] else [])
  end.
Proof.
  intros Hi. unfold supplied, code_of.
  destruct (is_missing w (Rf_findVarInFrame (envs w) envir name)) eqn:Hm.
  { rewrite arg_iter_missing by done. intros [= <- <- <-].
    unfold is_missing, code_of in Hm.
    destruct (Rf_findVarInFrame (envs w) envir name) as [| |s| |p| | | | | |];
      try done.
    destruct (proms w !! p) as [pr|]; [|done].
    change (is_R_MissingArg (PRCODE pr) = true) in Hm. cbn. rewrite Hm. by simpl. }
  unfold arg_iter, get_world, mbind, M_bind at 1.
  rewrite decide_True by done.
  unfold is_missing, code_of in Hm.
  destruct (Rf_findVarInFrame (envs w) envir name) as [| |s| |p| | | | | |];
    try done.
  { by destruct s. }
  intros H. apply bind_Ret in H as (code & w0 & Hcode & H).
  unfold PRCODE_of, get_promise, mbind, M_bind, mret, M_ret in Hcode.
  destruct (proms w !! p) as [pr|] eqn:Hp; [|done].
  change (is_R_MissingArg (PRCODE pr) = false) in Hm.
  injection Hcode as <- <-. cbn. rewrite Hm in H |- *. simpl in H.
  apply bind_Ret in H as (val & w2 & Hval & H).
  apply Rf_eval_promise_spec in Hval as (pr' & Hp' & Hpv & Henv & Hf & Hw2).
  rewrite Hp in Hp'. injection Hp' as <-.
  exists val. unfold memo_value, classes_for.
  destruct (Rf_inherits val "R7_super") eqn:Hs; simpl in H.
  - apply bind_Ret in H as (tv & w3 & Htv & H).
    unfold from_option, mret, M_ret, halt in Htv.
    destruct (VECTOR_ELT val 0) as [tv'|]; [|done]. injection Htv as <- <-.
    apply bind_Ret in H as ([] & w4 & Hset & H).
    apply SET_PRVALUE_spec in Hset as (pr2 & Hp2 & ->).
    apply bind_Ret in H as (cls & w5 & Hcls & H).
    unfold from_option, mret, M_ret, halt in Hcls.
    change (option_bind SEXP (list string) as_classes (VECTOR_ELT val 1))
      with (VECTOR_ELT val 1 ≫= as_classes) in Hcls.
    destruct (VECTOR_ELT val 1 ≫= as_classes) as [cl|]; [|done].
    injection Hcls as <- <-. unfold mret, M_ret in H. injection H as <- <- <-.
    exists tv', cl, pr, (Promise tv' (PRCODE pr2) (PRENV pr2)). simpl.
    assert (PRCODE pr2 = PRCODE pr ∧
            <[p:=Promise tv' (PRCODE pr2) (PRENV pr2)]> (proms w2)
            = <[p:=Promise tv' (PRCODE pr2) (PRENV pr2)]> (proms w)) as [? ?].
    { destruct Hw2 as [[_ ->]|[_ Hw2]].
      - rewrite Hp in Hp2. by injection Hp2 as <-.
      - rewrite Hw2 in Hp2 |- *. rewrite lookup_insert_eq in Hp2.
        injection Hp2 as <-. by rewrite insert_insert_eq. }
    repeat split; done.
  - apply bind_Ret in H as ([] & w4 & Hset & H).
    apply SET_PRVALUE_spec in Hset as (pr2 & Hp2 & ->).
    apply bind_Ret in H as (cls & w5 & Hcls & H).
    unfold R7_obj_dispatch, host, halt, log, mbind, M_bind in Hcls. simpl in Hcls.
    destruct (obj_dispatch val) as [cls'| | |]; try done.
    injection Hcls as <- <-. unfold mret, M_ret in H. injection H as <- <- <-.
    exists val, cls', pr, (Promise val (PRCODE pr2) (PRENV pr2)). simpl.
    rewrite forces_app. simpl. rewrite app_nil_r.
    assert (PRCODE pr2 = PRCODE pr ∧
            <[p:=Promise val (PRCODE pr2) (PRENV pr2)]> (proms w2)
            = <[p:=Promise val (PRCODE pr2) (PRENV pr2)]> (proms w)) as [? ?].
    { destruct Hw2 as [[_ ->]|[_ Hw2]].
      - rewrite Hp in Hp2. by injection Hp2 as <-.
      - rewrite Hw2 in Hp2 |- *. rewrite lookup_insert_eq in Hp2.
        injection Hp2 as <-. by rewrite insert_insert_eq. }
    repeat split; done.
Qed.

(** *** Worlds that differ in the value slots of some promises *)

Lemma supplied_ext (w1 w : world) (envir : addr) (name : string) :
  envs w1 = envs w → (∀ q, code_of w1 q = code_of w q) →
  supplied w1 envir name = supplied w envir name.
Proof.
  intros He Hc. unfold supplied. rewrite He.
  destruct (Rf_findVarInFrame _ _ _); try done. by rewrite Hc.
Qed.

Lemma supplied_promises_ext (w1 w : world) (envir : addr) (names : list string) :
  envs w1 = envs w → (∀ q, code_of w1 q = code_of w q) →
  supplied_promises w1 envir names = supplied_promises w envir names.
Proof.
  intros He Hc. unfold supplied_promises.
  induction names as [|n names IH]; csimpl; [done|].
  rewrite (supplied_ext w1 w) by done.
  destruct (supplied w envir n); by rewrite IH.
Qed.

Lemma is_missing_ext (w1 w : world) (arg : SEXP) :
  (∀ q, code_of w1 q = code_of w q) → is_missing w1 arg = is_missing w arg.
Proof. intros Hc. destruct arg; simpl; try done. by rewrite Hc. Qed.

Lemma supplied_in_take (w : world) (envir : addr) (names : list string)
    (k n : nat) (name : string) (q : addr) :
  names !! k = Some name → k < n → supplied w envir name = Some q →
  q ∈ supplied_promises w envir (take n names).
Proof.
  intros Hk Hn Hq. unfold supplied_promises.
  apply list_elem_of_omap. exists name. split; [|done].
  apply list_elem_of_lookup. exists k. by rewrite lookup_take_lt.
Qed.

Lemma filter_ext_in {A} (P Q : A → Prop) `{∀ x, Decision (P x)} `{∀ x, Decision (Q x)}
    (l : list A) :
  (∀ x, x ∈ l → P x ↔ Q x) → filter P l = filter Q l.
Proof.
  induction l as [|x l IH]; intros Hl; [done|].
  rewrite !filter_cons. rewrite IH by (intros y Hy; apply Hl; by right).
  destruct (decide (P x)) as [HP|HP], (decide (Q x)) as [HQ|HQ]; try done.
  - apply Hl in HP; [done|by left].
  - apply Hl in HQ; [done|by left].
Qed.

Lemma insert_frame (ps : gmap addr promise) (p q : addr) (pr : promise) :
  q ≠ p → <[p := pr]> ps !! q = ps !! q.
Proof. intros. by rewrite lookup_insert_ne. Qed.

(** *** The loop *)

(** The loop, summed up position by position.  The promises of the supplied
    dispatch arguments are pairwise distinct, as they are in a call frame. *)
Lemma args_loop_spec (envir : addr) (nd : nat) :
  ∀ (formals : list string) (i : nat) (dc0 : signature_t) (w : world)
    (dc : signature_t) (mcall : list cell) (w' : world),
  args_loop (pure_thunks thunk_value) obj_dispatch envir nd i formals dc0 w = (Ret (dc, mcall), w') →
  NoDup (supplied_promises w envir (take (nd - i) formals)) →
  envs w' = envs w ∧
  (∀ q, code_of w' q = code_of w q) ∧
  length dc = length dc0 ∧
  (∀ j, j < i → dc !! j = dc0 !! j) ∧
  (∀ q, q ∉ supplied_promises w envir (take (nd - i) formals) →
        proms w' !! q = proms w !! q) ∧
  forces (trace w') =
    forces (trace w) ++
    filter (λ p, unforced w p = true)
      (supplied_promises w envir (take (nd - i) formals)) ∧
  (∀ k name, formals !! k = Some name →
     position_spec thunk_value obj_dispatch w w' envir nd (i + k) name dc (mcall !! k)).
Proof.
  induction formals as [|name rest IH]; intros i dc0 w dc mcall w' Hrun Hnd.
  { injection Hrun as <- <- <-. rewrite take_nil. simpl.
    rewrite app_nil_r. repeat split; done. }
  simpl in Hrun.
  apply bind_Ret in Hrun as ([dc1 c] & w1 & Hstep & Hrun).
  apply bind_Ret in Hrun as ([dc2 mcall'] & w2 & Hrest & Hrun).
  unfold mret, M_ret in Hrun. injection Hrun as <- <- <-.
  destruct (decide (i < nd)) as [Hi|Hi].
  2:{ (* not a dispatch argument *)
    rewrite arg_iter_other in Hstep by done. injection Hstep as <- <- <-.
    replace (nd - i) with 0 in * by lia.
    specialize (IH (S i) dc0 w dc2 mcall' w2 Hrest).
    replace (nd - S i) with 0 in IH by lia.
    rewrite take_0 in *.
    destruct (IH Hnd) as (He & Hc & Hl & Hlow & Hfr & Hf & Hpos).
    repeat split; try done.
    - intros j Hj. apply Hlow. lia.
    - intros [|k] name' Hk.
      + injection Hk as <-. unfold position_spec.
        rewrite decide_False by lia. done.
      + simpl in Hk. replace (i + S k) with (S i + k) by lia. by apply Hpos. }
  replace (nd - i) with (S (nd - S i)) in * by lia.
  rewrite firstn_cons in *.
  unfold supplied_promises in Hnd |- *. 
  change (omap (supplied w envir) (name :: take (nd - S i) rest))
    with (match supplied w envir name with
          | Some p => p :: supplied_promises w envir (take (nd - S i) rest)
          | None => supplied_promises w envir (take (nd - S i) rest)
          end) in *.
  pose proof (arg_iter_dispatch envir nd i name dc0 dc1 c w w1 Hi Hstep) as Hs.
  destruct (supplied w envir name) as [p|] eqn:Hsup.
  - (* a supplied dispatch argument *)
    destruct Hs as (val & tv & cls & pr & pr1 & Hp & Hpv & Hmemo & Hcls & -> & -> &
                    He1 & Hp1 & Hv1 & Hc1 & Hf1).
    apply NoDup_cons in Hnd as [Hpn Hnd].
    assert (Hcode : ∀ q, code_of w1 q = code_of w q).
    { intros q. unfold code_of. rewrite Hp1.
      destruct (decide (q = p)) as [->|Hq].
      - rewrite lookup_insert_eq, Hp. simpl. f_equal. exact Hc1.
      - by rewrite lookup_insert_ne. }
    pose proof (supplied_promises_ext w1 w envir (take (nd - S i) rest) He1 Hcode) as Hsp.
    specialize (IH (S i) (<[i:=cls]> dc0) w1 dc2 mcall' w2 Hrest).
    rewrite Hsp in IH.
    destruct (IH Hnd) as (He & Hc & Hl & Hlow & Hfr & Hf & Hpos).
    assert (Hother : ∀ q, q ≠ p → proms w1 !! q = proms w !! q).
    { intros q Hq. rewrite Hp1. by apply insert_frame. }
    repeat split.
    + by rewrite He.
    + intros q. by rewrite Hc.
    + by rewrite Hl, length_insert.
    + intros j Hj. rewrite Hlow by lia. apply list_lookup_insert_ne. lia.
    + intros q Hq. apply not_elem_of_cons in Hq as [Hq1 Hq2].
      rewrite Hfr by done. by apply Hother.
    + rewrite Hf, Hf1, <- app_assoc. f_equal.
      rewrite filter_cons.
      rewrite (filter_ext_in (λ q, unforced w1 q = true) (λ q, unforced w q = true)).
      * destruct (unforced w p); by rewrite ?decide_True, ?decide_False by done.
      * intros q Hq. unfold unforced. rewrite Hother; [done|].
        intros ->. done.
    + intros [|k] name' Hk.
      * injection Hk as <-. unfold position_spec.
        rewrite Nat.add_0_r, decide_True, Hsup by done.
        exists val, tv, cls, pr1. repeat split; try done.
        -- intros Hlen. rewrite Hlow by lia. apply list_lookup_insert_eq.
           rewrite Hl, length_insert in Hlen. done.
        -- rewrite Hfr by done. by rewrite Hp1, lookup_insert_eq.
      * simpl in Hk. specialize (Hpos k name' Hk).
        replace (i + S k) with (S i + k) by lia.
        unfold position_spec in Hpos |- *.
        destruct (decide (S i + k < nd)) as [Hk'|Hk']; [|done].
        rewrite (supplied_ext w1 w) in Hpos by done.
        rewrite (is_missing_ext w1 w), He1 in Hpos by done.
        destruct (supplied w envir name') as [q|] eqn:Hq; [|done].
        assert (q ∈ supplied_promises w envir (take (nd - S i) rest)) as Hin.
        { eapply supplied_in_take; [done| lia |done]. }
        assert (q ≠ p) as Hqp by (intros ->; done).
        unfold promise_value in Hpos |- *. by rewrite Hother in Hpos.
  - (* a missing dispatch argument *)
    destruct Hs as (Hmiss & -> & -> & ->).
    specialize (IH (S i) (<[i:=["MISSING"]]> dc0) w dc2 mcall' w2 Hrest).
    destruct (IH Hnd) as (He & Hc & Hl & Hlow & Hfr & Hf & Hpos).
    repeat split; try done.
    + by rewrite Hl, length_insert.
    + intros j Hj. rewrite Hlow by lia. apply list_lookup_insert_ne. lia.
    + intros [|k] name' Hk.
      * injection Hk as <-. unfold position_spec.
        rewrite Nat.add_0_r, decide_True, Hsup by done.
        repeat split; try done.
        intros Hlen. rewrite Hlow by lia. apply list_lookup_insert_eq.
        rewrite Hl, length_insert in Hlen. done.
      * simpl in Hk. replace (i + S k) with (S i + k) by lia. by apply Hpos.
Qed.

(** The loop again, for what does not depend on the promises being
    distinct: the cells of the call and the slots of the missing
    arguments. *)
Lemma args_loop_cells (envir : addr) (nd : nat) :
  ∀ (formals : list string) (i : nat) (dc0 : signature_t) (w : world)
    (dc : signature_t) (mcall : list cell) (w' : world),
  args_loop (pure_thunks thunk_value) obj_dispatch envir nd i formals dc0 w = (Ret (dc, mcall), w') →
  envs w' = envs w ∧
  (∀ q, code_of w' q = code_of w q) ∧
  length dc = length dc0 ∧
  (∀ j, j < i → dc !! j = dc0 !! j) ∧
  (∀ k name, formals !! k = Some name →
     if decide (i + k < nd) then
       match supplied w envir name with
       | Some p => mcall !! k = Some (Cell (PROMSXP p) R_NilValue)
       | None =>
           (i + k < length dc → dc !! (i + k) = Some (Rf_mkString "MISSING")) ∧
           mcall !! k = Some (Cell (SYMSXP name) R_NilValue)
       end
     else mcall !! k = Some (Cell (SYMSXP name) (SYMSXP name))).
Proof.
  induction formals as [|name rest IH]; intros i dc0 w dc mcall w' Hrun.
  { injection Hrun as <- <- <-. repeat split; done. }
  simpl in Hrun.
  apply bind_Ret in Hrun as ([dc1 c] & w1 & Hstep & Hrun).
  apply bind_Ret in Hrun as ([dc2 mcall'] & w2 & Hrest & Hrun).
  unfold mret, M_ret in Hrun. injection Hrun as <- <- <-.
  destruct (IH (S i) dc1 w1 dc2 mcall' w2 Hrest) as (He & Hc & Hl & Hlow & Hpos).
  assert (envs w1 = envs w ∧ (∀ q, code_of w1 q = code_of w q) ∧
          length dc1 = length dc0 ∧ (∀ j, j < i → dc1 !! j = dc0 !! j) ∧
          if decide (i < nd) then
            match supplied w envir name with
            | Some p => c = Cell (PROMSXP p) R_NilValue
            | None => (i < length dc0 → dc1 !! i = Some (Rf_mkString "MISSING")) ∧
                      c = Cell (SYMSXP name) R_NilValue
            end
          else c = Cell (SYMSXP name) (SYMSXP name))
    as (He1 & Hc1 & Hl1 & Hlow1 & Hc0).
  { destruct (decide (i < nd)) as [Hi|Hi].
    - pose proof (arg_iter_dispatch envir nd i name dc0 dc1 c w w1 Hi Hstep) as Hs.
      destruct (supplied w envir name) as [p|].
      + destruct Hs as (val & tv & cls & pr & pr1 & Hp & _ & _ & _ & -> & -> &
                        He1 & Hp1 & _ & Hc1 & _).
        repeat split; try done.
        * intros q. unfold code_of. rewrite Hp1.
          destruct (decide (q = p)) as [->|Hq].
          -- rewrite lookup_insert_eq, Hp. simpl. f_equal. exact Hc1.
          -- by rewrite lookup_insert_ne.
        * by rewrite length_insert.
        * intros j Hj. apply list_lookup_insert_ne. lia.
      + destruct Hs as (_ & -> & -> & ->).
        repeat split; try done.
        * by rewrite length_insert.
        * intros j Hj. apply list_lookup_insert_ne. lia.
        * intros Hlen. by apply list_lookup_insert_eq.
    - rewrite arg_iter_other in Hstep by done. by injection Hstep as <- <- <-. }
  repeat split.
  - by rewrite He.
  - intros q. by rewrite Hc.
  - by rewrite Hl.
  - intros j Hj. rewrite Hlow by lia. by apply Hlow1.
  - intros [|k] name' Hk.
    + injection Hk as <-. rewrite Nat.add_0_r. simpl.
      destruct (decide (i < nd)); [|by rewrite Hc0].
      destruct (supplied w envir name); [by rewrite Hc0|].
      destruct Hc0 as [Hdc ->]. split; [|done].
      intros Hlen. rewrite Hlow by lia. apply Hdc. by rewrite <- Hl1, <- Hl.
    + simpl in Hk. specialize (Hpos k name' Hk).
      replace (i + S k) with (S i + k) by lia. simpl.
      by rewrite (supplied_ext w1 w) in Hpos.
Qed.

Lemma is_missing_not_supplied (w : world) (envir : addr) (name : string) :
  is_missing w (Rf_findVarInFrame (envs w) envir name) = true →
  supplied w envir name = None.
Proof.
  unfold is_missing, supplied.
  destruct (Rf_findVarInFrame _ _ _); try done.
  destruct (code_of w a); [|done]. by intros ->.
Qed.

Lemma build_signature_loop (generic : SEXP) (envir : addr) (w w' : world)
    (dc : signature_t) (mcall : list cell) :
  build_signature (pure_thunks thunk_value) obj_dispatch generic envir w = (Ret (dc, mcall), w') →
  args_loop (pure_thunks thunk_value) obj_dispatch envir (n_dispatch_of w generic) 0
    (formals_of generic) (replicate (n_dispatch_of w generic) []) w
  = (Ret (dc, mcall), w').
Proof. unfold build_signature. by destruct generic. Qed.





(** Once the signature is built, [method_call_] looks the method up and
    applies it to the rebuilt call. *)
Lemma method_call_after_build (call generic : SEXP) (envir : addr) (w w' : world)
    (dc : signature_t) (mcall : list cell) :
  build_signature (pure_thunks thunk_value) obj_dispatch generic envir w = (Ret (dc, mcall), w') →
  method_call_ (pure_thunks thunk_value) obj_dispatch method_lookup_error apply_closure
    call generic (ENVSXP envir) w
  = (m ← method_ method_lookup_error generic dc (Rf_ScalarLogical 1);
     Rf_eval_call apply_closure m mcall envir) w'.
Proof.
  intros Hb. unfold method_call_. unfold mbind at 1, M_bind at 1. by rewrite Hb.
Qed.


Lemma build_signature_length (generic : SEXP) (envir : addr) (w w' : world)
    (dc : signature_t) (mcall : list cell) :
  build_signature (pure_thunks thunk_value) obj_dispatch generic envir w = (Ret (dc, mcall), w') →
  length dc = n_dispatch_of w generic.
Proof.
  intros Hb%build_signature_loop.
  apply args_loop_cells in Hb as (_ & _ & Hl & _). by rewrite Hl, length_replicate.
Qed.

(** A class list of one name: the resolver probes that name, then [ANY]. *)
Lemma method_rec_single_class (h : heap) (table : addr) (signature : signature_t)
    (i : nat) (klass : string) :
  signature !! i = Some [klass] →
  method_rec h table signature i =
    outcome_bind (probe h table signature i klass) (λ v,
      if decide (TYPEOF v = CLOSXP_t) then Ret v
      else
        outcome_bind (probe h table signature i ANY_sym) (λ a,
          Ret (if decide (TYPEOF a = CLOSXP_t) then a else R_NilValue))).
Proof.
  intros Hi. rewrite method_rec_eqn.
  destruct (le_lt_dec _ _) as [Hle|_].
  - apply lookup_lt_Some in Hi. lia.
  - rewrite (list_lookup_total_correct _ _ _ Hi). simpl.
    destruct (probe h table signature i klass) as [v| | |]; simpl; try done.
    by destruct (decide (TYPEOF v = CLOSXP_t)).
Qed.

(** C4. In a dispatch call whose dispatch argument at position [i] evaluates
    to a super-shim [{true_value, cl}], the signature builder stores [cl] at
    [dispatch_classes[i]], whatever [obj_dispatch] would say, writes
    [true_value] into the value slot of the argument's promise and passes
    that promise.  Every dispatch argument whose value is not a shim gets
    the class list that [obj_dispatch] gives for its value, and the method
    is looked up with this signature and applied to these arguments. *)
Theorem super_shim_dispatch (call generic : SEXP) (envir : addr) (w w' : world)
    (dc : signature_t) (mcall : list cell) (i : nat) (name : string) (p : addr)
    (val true_value : SEXP) (cl : list string) :
  build_signature (pure_thunks thunk_value) obj_dispatch generic envir w = (Ret (dc, mcall), w') →
  NoDup (dispatch_promises w generic envir) →
  formals_of generic !! i = Some name →
  i < n_dispatch_of w generic →
  supplied w envir name = Some p →
  promise_value thunk_value w p = Ret val →
  Rf_inherits val "R7_super" = true →
  VECTOR_ELT val 0 = Some true_value →
  VECTOR_ELT val 1 = Some (STRSXP cl) →
  dc !! i = Some cl ∧
  (∃ pr', proms w' !! p = Some pr' ∧ PRVALUE pr' = true_value) ∧
  mcall !! i = Some (Cell (PROMSXP p) R_NilValue) ∧
  (∀ j name_j q v,
     formals_of generic !! j = Some name_j → j < n_dispatch_of w generic →
     supplied w envir name_j = Some q →
     promise_value thunk_value w q = Ret v →
     Rf_inherits v "R7_super" = false →
     ∃ cls, obj_dispatch v = Ret cls ∧ dc !! j = Some cls) ∧
  method_call_ (pure_thunks thunk_value) obj_dispatch method_lookup_error apply_closure
    call generic (ENVSXP envir) w
  = (m ← method_ method_lookup_error generic dc (Rf_ScalarLogical 1);
     Rf_eval_call apply_closure m mcall envir) w'.
Proof.
  intros Hb Hnd Hi Hlt Hsup Hpv Hs Htv Hcl.
  pose proof (build_signature_length _ _ _ _ _ _ Hb) as Hlen.
  pose proof (build_signature_loop _ _ _ _ _ _ Hb) as Hloop.
  unfold dispatch_promises in Hnd.
  apply args_loop_spec in Hloop as (_ & _ & _ & _ & _ & _ & Hpos);
    [|by rewrite Nat.sub_0_r].
  assert (Hat : ∀ j name_j q v,
    formals_of generic !! j = Some name_j → j < n_dispatch_of w generic →
    supplied w envir name_j = Some q →
    promise_value thunk_value w q = Ret v →
    ∃ tv cls pr', memo_value v = Some tv ∧ classes_for obj_dispatch v = Ret cls ∧
      dc !! j = Some cls ∧ mcall !! j = Some (Cell (PROMSXP q) R_NilValue) ∧
      proms w' !! q = Some pr' ∧ PRVALUE pr' = tv).
  { intros j name_j q v Hj Hjlt Hq Hv. specialize (Hpos j name_j Hj).
    unfold position_spec in Hpos. simpl in Hpos.
    rewrite decide_True, Hq in Hpos by done.
    destruct Hpos as (v' & tv & cls & pr' & Hv' & Hm & Hc & Hdc & Hcell & Hp' & Hpr).
    rewrite Hv in Hv'. injection Hv' as <-.
    exists tv, cls, pr'. repeat split; try done. apply Hdc. by rewrite Hlen. }
  split; [|split; [|split; [|split]]].
  - destruct (Hat i name p val Hi Hlt Hsup Hpv) as (tv & cls & pr' & _ & Hc & Hdc & _).
    unfold classes_for in Hc. rewrite Hs, Hcl in Hc. simpl in Hc.
    injection Hc as <-. done.
  - destruct (Hat i name p val Hi Hlt Hsup Hpv) as (tv & cls & pr' & Hm & _ & _ & _ & Hp' & Hpr).
    unfold memo_value in Hm. rewrite Hs, Htv in Hm. injection Hm as <-. eauto.
  - by destruct (Hat i name p val Hi Hlt Hsup Hpv) as (tv & cls & pr' & _ & _ & _ & ? & _).
  - intros j name_j q v Hj Hjlt Hq Hv Hns.
    destruct (Hat j name_j q v Hj Hjlt Hq Hv) as (tv & cls & pr' & _ & Hc & Hdc & _).
    unfold classes_for in Hc. rewrite Hns in Hc. eauto.
  - by apply method_call_after_build.
Qed.

(** C5. In a dispatch call whose dispatch argument at position [i] is
    missing, the binding being the missing marker or a promise of it, the
    signature builder stores the class list [["MISSING"]] at
    [dispatch_classes[i]] and passes the name of the formal as a symbol,
    without a tag.  The turn of the loop for a missing argument leaves the
    world as it is: nothing is evaluated.  The resolver treats the name as
    it treats any class: at position [i] it probes the key [MISSING] of the
    node, then [ANY]. *)
Theorem missing_dispatch_argument (generic : SEXP) (envir : addr) (w w' : world)
    (dc : signature_t) (mcall : list cell) (i : nat) (name : string) :
  build_signature (pure_thunks thunk_value) obj_dispatch generic envir w = (Ret (dc, mcall), w') →
  formals_of generic !! i = Some name →
  i < n_dispatch_of w generic →
  is_missing w (Rf_findVarInFrame (envs w) envir name) = true →
  dc !! i = Some ["MISSING"] ∧
  mcall !! i = Some (Cell (SYMSXP name) R_NilValue) ∧
  (∀ w0 dc0,
     is_missing w0 (Rf_findVarInFrame (envs w0) envir name) = true →
     arg_iter (pure_thunks thunk_value) obj_dispatch envir (n_dispatch_of w generic) i name dc0 w0
     = (Ret (<[i := ["MISSING"]]> dc0, Cell (SYMSXP name) R_NilValue), w0)) ∧
  (∀ h table,
     method_rec h table dc i =
       outcome_bind (probe h table dc i "MISSING") (λ v,
         if decide (TYPEOF v = CLOSXP_t) then Ret v
         else
           outcome_bind (probe h table dc i ANY_sym) (λ a,
             Ret (if decide (TYPEOF a = CLOSXP_t) then a else R_NilValue))) ∧
     probe h table dc i "MISSING"
     = descend h dc i (Rf_findVarInFrame h table "MISSING")).
Proof.
  intros Hb Hi Hlt Hmiss.
  pose proof (build_signature_length _ _ _ _ _ _ Hb) as Hlen.
  pose proof (build_signature_loop _ _ _ _ _ _ Hb) as Hloop.
  apply args_loop_cells in Hloop as (_ & _ & _ & _ & Hpos).
  specialize (Hpos i name Hi). simpl in Hpos.
  rewrite decide_True, (is_missing_not_supplied _ _ _ Hmiss) in Hpos by done.
  destruct Hpos as [Hdc Hcell].
  assert (Hdci : dc !! i = Some ["MISSING"]) by (apply Hdc; by rewrite Hlen).
  split; [done|]. split; [done|]. split.
  - intros w0 dc0 Hm0. by apply arg_iter_missing.
  - intros h table. split; [by apply method_rec_single_class|done].
Qed.

End Call.

(** ** The call frames of the examples *)

Lemma NoDup_two_promises : NoDup [0; 1].
Proof. by apply (bool_decide_unpack (NoDup [0; 1])). Qed.


Lemma super_shim_dispatch_witness :
  (built w_super_cat).1
    = Ret ([["animal"]; ["cat"; "animal"]], [promise_cell 0; promise_cell 1]) ∧
  promise_value ex_eval_code w_super_cat 0
    = Ret (super (object ["dog"; "animal"]) ["animal"]) ∧
  (∃ pr', proms (built w_super_cat).2 !! 0 = Some pr' ∧
          PRVALUE pr' = object ["dog"; "animal"]).
Proof.
  split; [by vm_compute|]. split; [by vm_compute|].
  refine (proj1 (proj2 (super_shim_dispatch ex_eval_code ex_obj_dispatch
            ex_method_lookup_error ex_apply_closure R_NilValue speak 10
            w_super_cat (built w_super_cat).2
            [["animal"]; ["cat"; "animal"]] [promise_cell 0; promise_cell 1]
            0 "x" 0 (super (object ["dog"; "animal"]) ["animal"])
            (object ["dog"; "animal"]) ["animal"] _ _ _ _ _ _ _ _ _))).
  - vm_compute. reflexivity.
  - replace (dispatch_promises w_super_cat speak 10) with [0; 1]
      by (vm_compute; reflexivity).
    exact NoDup_two_promises.
  - reflexivity.
  - vm_compute. lia.
  - vm_compute. reflexivity.
  - vm_compute. reflexivity.
  - reflexivity.
  - reflexivity.
  - reflexivity.
Defined.

Lemma missing_dispatch_argument_witness :
  is_missing w_dog_missing (Rf_findVarInFrame (envs w_dog_missing) 10 "y") = true ∧
  (built w_dog_missing).1
    = Ret ([["dog"; "animal"]; ["MISSING"]],
           [promise_cell 0; Cell (SYMSXP "y") R_NilValue]) ∧
  [["dog"; "animal"]; ["MISSING"]] !! 1 = Some ["MISSING"].
Proof.
  split; [by vm_compute|]. split; [by vm_compute|].
  refine (proj1 (missing_dispatch_argument ex_eval_code ex_obj_dispatch
            speak 10 w_dog_missing (built w_dog_missing).2
            [["dog"; "animal"]; ["MISSING"]]
            [promise_cell 0; Cell (SYMSXP "y") R_NilValue] 1 "y" _ _ _ _)).
  - vm_compute. reflexivity.
  - reflexivity.
  - vm_compute. lia.
  - vm_compute. reflexivity.
Defined.

(** The scenarios of the design document on the table
    [{dog: {cat: m1, ANY: m2}, ANY: {ANY: m3}}]. *)
Example speak_scenarios :
  method_rec speak_heap 0 [["dog"; "animal"]; ["cat"; "animal"]] 0 = Ret m1 ∧
  method_rec speak_heap 0 [["dog"; "animal"]; ["bird"; "animal"]] 0 = Ret m2 ∧
  method_rec speak_heap 0 [["fish"; "animal"]; ["cat"; "animal"]] 0 = Ret m3 ∧
  method_rec speak_heap 0 [["animal"]; ["cat"; "animal"]] 0 = Ret m3.
Proof. by vm_compute. Qed.

(** A call [speak(super(x, dog), y)] ends in the method that the class list
    [animal] selects, and the method sees the dog itself. *)
Example speak_super_call :
  (method_call_ (pure_thunks ex_eval_code) ex_obj_dispatch ex_method_lookup_error ex_apply_closure
     R_NilValue speak (ENVSXP 10) w_super_cat).1 = Ret m3 ∧
  (method_call_ (pure_thunks ex_eval_code) ex_obj_dispatch ex_method_lookup_error ex_apply_closure
     R_NilValue speak (ENVSXP 10) w_dog_cat).1 = Ret m1 ∧
  (method_call_ (pure_thunks ex_eval_code) ex_obj_dispatch ex_method_lookup_error ex_apply_closure
     R_NilValue speak (ENVSXP 10) w_dog_missing).1 = Ret m2.
Proof. by vm_compute. Qed.

(** * Further properties of the resolver *)

(** Where the resolver got a method from: the class or [ANY] probed at
    position [i]. *)
Lemma method_rec_from_probe (h : heap) (table : addr) (signature : signature_t)
    (i : nat) (m : SEXP) :
  method_rec h table signature i = Ret m → TYPEOF m = CLOSXP_t →
  ∃ classes k,
    signature !! i = Some classes ∧ (k ∈ classes ∨ k = ANY_sym) ∧
    probe h table signature i k = Ret m.
Proof.
  rewrite method_rec_eqn. destruct (le_lt_dec _ _) as [Hle|Hlt]; [by intros [= <-]|].
  destruct (lookup_lt_is_Some_2 signature i Hlt) as [classes Hi].
  rewrite (list_lookup_total_correct _ _ _ Hi).
  destruct (classes_loop _ _) as [[v|]| | |] eqn:E; simpl; try done.
  - intros [= <-] _. apply classes_loop_Some in E as (k & Hk & Hv & _).
    exists classes, k. eauto.
  - destruct (descend _ _ _ _) as [v| | |] eqn:Ed; simpl; try done.
    intros [= <-]. destruct (decide _); [|done]. intros _.
    exists classes, ANY_sym. rewrite probe_ANY. eauto.
Qed.

Lemma method_rec_sound_aux (n : nat) :
  ∀ (h : heap) (table : addr) (signature : signature_t) (i : nat) (m : SEXP),
  length signature - i ≤ n →
  method_rec h table signature i = Ret m → TYPEOF m = CLOSXP_t →
  ∃ keys, admissible signature i keys = true ∧ walk h table keys = m.
Proof.
  induction n as [|n IH]; intros h table signature i m Hn Hm Hclo;
    destruct (method_rec_from_probe _ _ _ _ _ Hm Hclo) as (classes & k & Hi & Hk & Hp);
    pose proof (lookup_lt_Some _ _ _ Hi) as Hlt; [lia|].
  assert (Hadm : bool_decide (k ∈ classes) || bool_decide (k = ANY_sym) = true).
  { destruct Hk as [Hk| ->].
    - by rewrite (bool_decide_eq_true_2 _ Hk).
    - rewrite (bool_decide_eq_true_2 (ANY_sym = ANY_sym)) by done.
      by rewrite orb_true_r. }
  unfold probe in Hp.
  destruct (Rf_install k) as [k'| | |] eqn:Ek; simpl in Hp; try done.
  apply Rf_install_Ret in Ek as [-> _].
  destruct (Rf_findVarInFrame h table k) as [| | |t'| |f a| | | | |] eqn:Ef;
    simpl in Hp; try (injection Hp as <-; done).
  - destruct (IH h t' signature (S i) m) as (ks & Hks & Hw); [lia|done|done|].
    exists (k :: ks). simpl. by rewrite Hi, Hadm, Hks, Ef.
  - injection Hp as <-. exists [k]. simpl. by rewrite Hi, Hadm, Ef.
Qed.

Lemma method_rec_complete_aux (keys : list string) :
  ∀ (h : heap) (table : addr) (signature : signature_t) (i : nat) (m : SEXP),
  admissible signature i keys = true →
  TYPEOF (walk h table keys) = CLOSXP_t →
  method_rec h table signature i = Ret m →
  TYPEOF m = CLOSXP_t.
Proof.
  induction keys as [|k ks IH]; intros h table signature i m Hadm Hw Hm; [done|].
  simpl in Hadm. destruct (signature !! i) as [classes|] eqn:Hi; [|done].
  apply andb_prop in Hadm as [Hk Hks].
  assert (Hd : ∀ v, descend h signature i (Rf_findVarInFrame h table k) = Ret v →
                    TYPEOF v = CLOSXP_t).
  { intros v. simpl in Hw.
    destruct (Rf_findVarInFrame h table k) as [| | |t'| |f a| | | | |];
      destruct ks; simpl; try done; try (by intros [= <-]).
    all: by apply IH. }
  rewrite method_rec_eqn in Hm. destruct (le_lt_dec _ _) as [Hle|_].
  { apply lookup_lt_Some in Hi. lia. }
  rewrite (list_lookup_total_correct _ _ _ Hi) in Hm.
  destruct (classes_loop _ _) as [[v|]| | |] eqn:E; simpl in Hm; try done.
  - injection Hm as <-. by eapply classes_loop_closure.
  - apply orb_prop in Hk as [Hk|Hk]; apply bool_decide_eq_true_1 in Hk.
    + destruct (classes_loop_None _ _ _ E Hk) as (v & Hv & Hnc).
      unfold probe in Hv.
      destruct (Rf_install k) as [k'| | |] eqn:Ek; simpl in Hv; try done.
      apply Rf_install_Ret in Ek as [-> _]. by apply Hd in Hv.
    + subst k.
      destruct (descend _ _ _ _) as [v| | |] eqn:Ed; simpl in Hm; try done.
      injection Hm as <-. rewrite decide_True by (by apply Hd). by apply Hd.
Qed.

(** X1. A method returned by the resolver is registered in the table under a
    tuple of keys that the signature admits: starting at the table, each key
    is a class of the argument at its position, or [ANY], every key but the
    last leads to an environment, and the last is bound to the closure
    returned. *)
Theorem method_rec_returns_applicable_method (h : heap) (table : addr)
    (signature : signature_t) (i : nat) (m : SEXP) :
  method_rec h table signature i = Ret m →
  m ≠ R_NilValue →
  ∃ keys, admissible signature i keys = true ∧
          walk h table keys = m ∧
          TYPEOF (walk h table keys) = CLOSXP_t.
Proof.
  intros Hm Hne.
  destruct (method_rec_closure_or_nil _ _ _ _ _ Hm) as [Hc|]; [|done].
  destruct (method_rec_sound_aux (length signature) h table signature i m)
    as (keys & Ha & Hw); [lia|done|done|].
  exists keys. by rewrite Hw.
Qed.

(** X2. The resolver answers absent only when the table holds no applicable
    method, no tuple of keys admitted by the signature leading to a closure:
    it backs out of every environment that yields nothing and goes on with
    the next class.  When there is no applicable method it never returns
    one, and it answers absent if every class name of the signature can be
    interned; with a name that cannot, it may raise instead. *)
Theorem method_rec_absent_iff_none_applicable (h : heap) (table : addr)
    (signature : signature_t) (i : nat) :
  (method_rec h table signature i = Ret R_NilValue →
   ∀ keys, admissible signature i keys = true → TYPEOF (walk h table keys) ≠ CLOSXP_t) ∧
  ((∀ keys, admissible signature i keys = true →
            TYPEOF (walk h table keys) ≠ CLOSXP_t) →
   (∀ m, method_rec h table signature i = Ret m → m = R_NilValue) ∧
   (valid_signature signature → method_rec h table signature i = Ret R_NilValue)).
Proof.
  split.
  - intros Hnil keys Ha Hw.
    by pose proof (method_rec_complete_aux keys h table signature i _ Ha Hw Hnil).
  - intros Hnone.
    assert (Hret : ∀ m, method_rec h table signature i = Ret m → m = R_NilValue).
    { intros m Hm.
      destruct (method_rec_closure_or_nil _ _ _ _ _ Hm) as [Hc|]; [|done].
      destruct (method_rec_sound_aux (length signature) h table signature i m)
        as (keys & Ha & Hw); [lia|done|done|].
      destruct (Hnone keys Ha). by rewrite Hw. }
    split; [done|]. intros Hv.
    destruct (method_rec_valid h table signature i Hv) as [m Hm].
    by rewrite Hm, (Hret m Hm).
Qed.

Lemma method_rec_agree_aux (n : nat) :
  ∀ (h h' : heap) (table : addr) (signature : signature_t) (i : nat),
  length signature - i ≤ n →
  (∀ a k, dispatch_key signature k →
          Rf_findVarInFrame h a k = Rf_findVarInFrame h' a k) →
  method_rec h table signature i = method_rec h' table signature i.
Proof.
  induction n as [|n IH]; intros h h' table signature i Hn Hagree;
    rewrite !method_rec_eqn; destruct (le_lt_dec _ _) as [Hle|Hlt];
    try done; try lia.
  assert (Hd : ∀ k, dispatch_key signature k →
    descend h signature i (Rf_findVarInFrame h table k)
    = descend h' signature i (Rf_findVarInFrame h' table k)).
  { intros k Hk. rewrite <- (Hagree table k Hk).
    destruct (Rf_findVarInFrame h table k); try done.
    apply IH; [lia|done]. }
  assert (Hp : ∀ k, dispatch_key signature k →
    probe h table signature i k = probe h' table signature i k).
  { intros k Hk. unfold probe.
    destruct (Rf_install k) as [k'| | |] eqn:Ek; simpl; try done.
    apply Rf_install_Ret in Ek as [-> _]. by apply Hd. }
  destruct (lookup_lt_is_Some_2 signature i Hlt) as [classes Hi].
  rewrite (list_lookup_total_correct _ _ _ Hi).
  rewrite (classes_loop_agree _ (probe h' table signature i)).
  - destruct (classes_loop _ _) as [[v|]| | |]; simpl; try done.
    by rewrite Hd by (by left).
  - intros k Hk. apply Hp. right. apply Exists_exists. exists classes.
    split; [|done]. by eapply list_elem_of_lookup_2.
Qed.

(** The resolver asks the tables only for the classes that occur in the
    signature and for [ANY]: two heaps whose frames agree on these keys give
    the same result. *)
Lemma method_rec_agree (h h' : heap) (table : addr) (signature : signature_t) (i : nat) :
  (∀ a k, dispatch_key signature k →
          Rf_findVarInFrame h a k = Rf_findVarInFrame h' a k) →
  method_rec h table signature i = method_rec h' table signature i.
Proof. apply method_rec_agree_aux with (n := length signature). lia. Qed.

(** X3. Binding a value, a method or anything else, in any environment of
    the heap under a key that is neither [ANY] nor a class occurring in the
    signature changes no result of the resolver for this signature,
    whichever table it starts from. *)
Theorem method_rec_ignores_other_keys (h : heap) (table : addr)
    (signature : signature_t) (i : nat) (a : addr) (fr : gmap string SEXP)
    (k : string) (v : SEXP) :
  h !! a = Some fr →
  ¬ dispatch_key signature k →
  method_rec (<[a := <[k := v]> fr]> h) table signature i
  = method_rec h table signature i.
Proof.
  intros Ha Hk. apply method_rec_agree. intros a' k' Hk'.
  unfold Rf_findVarInFrame.
  destruct (decide (a' = a)) as [->|Hne].
  - rewrite lookup_insert_eq, Ha.
    rewrite lookup_insert_ne; [done|]. by intros ->.
  - by rewrite lookup_insert_ne.
Qed.

(** * Further properties of the lookup and of the call *)

(** X4. The error flag is read as a C truth value of its integer coercion:
    every flag whose integer value is not 0 behaves as [TRUE], the logical
    NA, [NULL] and a vector of length zero included, since they coerce to
    [NA_INTEGER]; a flag whose value is 0 behaves as [FALSE]. *)
Theorem method_error_flag_is_truth_value
    (method_lookup_error : SEXP → SEXP → signature_t → outcome SEXP)
    (generic : SEXP) (signature : signature_t) (error_ : SEXP) (e : Z) (w : world) :
  Rf_asInteger error_ = Some e →
  method_ method_lookup_error generic signature error_ w
  = method_ method_lookup_error generic signature
      (Rf_ScalarLogical (if decide (e = 0)%Z then 0 else 1)) w.
Proof.
  intros He. run_M.
  destruct (Rf_inherits generic "R7_generic"); simpl; [|done].
  destruct (Rf_getAttrib generic "methods"); try done.
  destruct (method_rec _ _ _ _) as [m| | |]; simpl; try done.
  rewrite He. destruct (decide (e = 0)%Z) as [->|Hne]; simpl; [done|].
  by destruct e.
Qed.

Lemma method_error_flag_is_truth_value_witness :
  Rf_asInteger (LGLSXP [None]) = Some NA_INTEGER ∧
  Rf_asInteger R_NilValue = Some NA_INTEGER ∧
  method_ ex_method_lookup_error speak [["fish"]; []] (LGLSXP [None])
    (World (delete 2 speak_heap) ∅ [])
  = method_ ex_method_lookup_error speak [["fish"]; []] (Rf_ScalarLogical 1)
      (World (delete 2 speak_heap) ∅ []).
Proof.
  split; [reflexivity|]. split; [reflexivity|].
  apply (method_error_flag_is_truth_value ex_method_lookup_error speak
           [["fish"]; []] (LGLSXP [None]) NA_INTEGER). reflexivity.
Defined.

(** ** The shape of what the builder returns *)

Section CallShape.

(** The expressions of the arguments are arbitrary code here: evaluating one
    may change the environments and the promises. *)
Variable eval_code : SEXP → SEXP → M SEXP.
Variable obj_dispatch : SEXP → outcome (list string).
Variable method_lookup_error : SEXP → SEXP → signature_t → outcome SEXP.
Variable apply_closure : SEXP → list cell → addr → M SEXP.

(** One turn of the loop leaves the class lists alone or writes the one at
    its own position. *)
Lemma arg_iter_shape (envir : addr) (nd i : nat) (name : string) (dc : signature_t)
    (w w1 : world) (dc1 : signature_t) (c : cell) :
  arg_iter eval_code obj_dispatch envir nd i name dc w = (Ret (dc1, c), w1) →
  dc1 = dc ∨ ∃ cls, dc1 = <[i := cls]> dc.
Proof.
  unfold arg_iter. intros H.
  apply bind_Ret in H as (w0 & w0' & _ & H). cbv zeta in H.
  destruct (decide (i < nd)).
  - apply bind_Ret in H as (code & w2 & _ & H).
    destruct (negb (is_R_MissingArg code)).
    + apply bind_Ret in H as (val & w3 & _ & H).
      destruct (negb (Rf_inherits val "R7_super")).
      * apply bind_Ret in H as (? & w4 & _ & H).
        apply bind_Ret in H as (cls & w5 & _ & H).
        injection H as <- <- <-. right. eauto.
      * apply bind_Ret in H as (tv & w4 & _ & H).
        apply bind_Ret in H as (? & w5 & _ & H).
        apply bind_Ret in H as (cls & w6 & _ & H).
        injection H as <- <- <-. right. eauto.
    + injection H as <- <- <-. right. eauto.
  - injection H as <- <- <-. by left.
Qed.

Lemma args_loop_shape (envir : addr) (nd : nat) :
  ∀ (formals : list string) (i : nat) (dc0 : signature_t) (w : world)
    (dc : signature_t) (mcall : list cell) (w' : world),
  args_loop eval_code obj_dispatch envir nd i formals dc0 w = (Ret (dc, mcall), w') →
  length mcall = length formals ∧
  length dc = length dc0 ∧
  ∀ j, i + length formals ≤ j → dc !! j = dc0 !! j.
Proof.
  induction formals as [|name rest IH]; intros i dc0 w dc mcall w' Hrun.
  { by injection Hrun as <- <- <-. }
  simpl in Hrun.
  apply bind_Ret in Hrun as ([dc1 c] & w1 & Hstep & Hrun).
  apply bind_Ret in Hrun as ([dc2 mcall'] & w2 & Hrest & Hrun).
  unfold mret, M_ret in Hrun. injection Hrun as <- <- <-.
  destruct (IH (S i) dc1 w1 dc2 mcall' w2 Hrest) as (Hl & Hlen & Hhigh).
  apply arg_iter_shape in Hstep as [->|[cls ->]].
  - split; [simpl; by rewrite Hl|]. split; [done|].
    intros j Hj. simpl in Hj. apply Hhigh. lia.
  - split; [simpl; by rewrite Hl|].
    split; [by rewrite Hlen, length_insert|].
    intros j Hj. simpl in Hj. rewrite Hhigh by lia.
    apply list_lookup_insert_ne. lia.
Qed.

Lemma build_signature_args_loop (generic : SEXP) (envir : addr) (w w' : world)
    (dc : signature_t) (mcall : list cell) :
  build_signature eval_code obj_dispatch generic envir w = (Ret (dc, mcall), w') →
  args_loop eval_code obj_dispatch envir (n_dispatch_of w generic) 0
    (formals_of generic) (replicate (n_dispatch_of w generic) []) w
  = (Ret (dc, mcall), w').
Proof. unfold build_signature. by destruct generic. Qed.

(** A class list that is empty: the resolver probes [ANY] and nothing
    else. *)
Lemma method_rec_no_class (h : heap) (table : addr) (signature : signature_t) (i : nat) :
  signature !! i = Some [] →
  method_rec h table signature i =
    outcome_bind (probe h table signature i ANY_sym)
      (λ a, Ret (if decide (TYPEOF a = CLOSXP_t) then a else R_NilValue)).
Proof.
  intros Hi. rewrite method_rec_eqn.
  destruct (le_lt_dec _ _) as [Hle|_].
  - apply lookup_lt_Some in Hi. lia.
  - by rewrite (list_lookup_total_correct _ _ _ Hi).
Qed.

(** X6. When the builder returns, whatever the evaluation of the arguments
    did, the call it rebuilt has one argument per formal of the generic and
    the signature one class list per dispatch argument, counted when the
    call began.  A generic that declares more dispatch arguments than it
    has formals leaves the class lists past its last formal empty, and at
    these positions the resolver probes [ANY] only. *)
Theorem build_signature_shape (generic : SEXP) (envir : addr) (w w' : world)
    (dc : signature_t) (mcall : list cell) :
  build_signature eval_code obj_dispatch generic envir w = (Ret (dc, mcall), w') →
  length dc = n_dispatch_of w generic ∧
  length mcall = length (formals_of generic) ∧
  ∀ j, length (formals_of generic) ≤ j → j < n_dispatch_of w generic →
       dc !! j = Some [] ∧
       ∀ h table,
         method_rec h table dc j =
           outcome_bind (probe h table dc j ANY_sym)
             (λ a, Ret (if decide (TYPEOF a = CLOSXP_t) then a else R_NilValue)).
Proof.
  intros Hb.
  pose proof (build_signature_args_loop _ _ _ _ _ _ Hb) as Hloop.
  apply args_loop_shape in Hloop as (Hl & Hlen & Hhigh).
  rewrite length_replicate in Hlen.
  split; [done|]. split; [done|].
  intros j Hj Hnd.
  assert (Hdc : dc !! j = Some []).
  { rewrite Hhigh by (simpl; lia). by apply lookup_replicate_2. }
  split; [done|]. intros h table. by apply method_rec_no_class.
Qed.

(** With no dispatch argument the loop passes every formal by name and
    touches nothing. *)
Lemma args_loop_no_dispatch (envir : addr) (formals : list string) :
  ∀ (i : nat) (dc : signature_t) (w : world),
  args_loop eval_code obj_dispatch envir 0 i formals dc w
  = (Ret (dc, (λ name, Cell (SYMSXP name) (SYMSXP name)) <$> formals), w).
Proof.
  induction formals as [|name rest IH]; intros i dc w; simpl; [done|].
  unfold mbind, M_bind at 1.
  assert (Hstep : arg_iter eval_code obj_dispatch envir 0 i name dc w
                  = (Ret (dc, Cell (SYMSXP name) (SYMSXP name)), w)).
  { unfold arg_iter, get_world, mbind, M_bind at 1.
    by rewrite decide_False by lia. }
  rewrite Hstep. unfold mbind, M_bind. by rewrite IH.
Qed.

(** X8. A generic that declares no dispatch argument can never be called
    with success: whatever its method table holds, whatever the call frame
    binds and whatever the arguments would do when evaluated,
    [method_call_] evaluates nothing, builds the empty signature, finds no
    method and reports the lookup error. *)
Theorem no_dispatch_argument_no_method (call : SEXP) (f : closure)
    (a : list (string * SEXP)) (t envir : addr) (w : world) :
  Rf_inherits (CLOSXP f a) "R7_generic" = true →
  Rf_getAttrib (CLOSXP f a) "methods" = ENVSXP t →
  n_dispatch_of w (CLOSXP f a) = 0 →
  method_call_ eval_code obj_dispatch method_lookup_error apply_closure
    call (CLOSXP f a) (ENVSXP envir) w
  = (lookup_error_outcome method_lookup_error (CLOSXP f a) [],
     World (envs w) (proms w)
       (trace w ++ [EvLookupError (Rf_getAttrib (CLOSXP f a) "name")
                      (Rf_getAttrib (CLOSXP f a) "dispatch_args") []])).
Proof.
  intros Hg Ht Hnd.
  assert (Hb : build_signature eval_code obj_dispatch (CLOSXP f a) envir w
    = (Ret ([], (λ name, Cell (SYMSXP name) (SYMSXP name)) <$> FORMALS f), w)).
  { unfold build_signature, get_world, mbind, M_bind.
    unfold n_dispatch_of in Hnd. rewrite Hnd. simpl.
    apply args_loop_no_dispatch. }
  unfold method_call_, mbind, M_bind at 1. rewrite Hb.
  unfold mbind, M_bind.
  rewrite (method_on_table method_lookup_error (CLOSXP f a) []
             (Rf_ScalarLogical 1) 1 t w R_NilValue Hg Ht eq_refl
             (method_rec_past_end (envs w) t [] 0 (Nat.le_refl 0))).
  simpl. unfold lookup_error_outcome.
  by destruct (method_lookup_error _ _ _).
Qed.

End CallShape.

(** ** Forcing, with arguments whose expressions are pure *)

Section CallForce.

Variable thunk_value : SEXP → SEXP → outcome SEXP.
Variable obj_dispatch : SEXP → outcome (list string).
Variable method_lookup_error : SEXP → SEXP → signature_t → outcome SEXP.
Variable apply_closure : SEXP → list cell → addr → M SEXP.

(** X9. A dispatch argument whose promise was forced before the call is not
    forced again: the builder forces, in the order of the formals, exactly
    the supplied dispatch promises that were still unforced, and for a
    forced one it takes the class list from the value already stored in the
    promise. *)
Theorem forced_promise_is_not_forced_again (generic : SEXP) (envir : addr)
    (w w' : world) (dc : signature_t) (mcall : list cell) :
  build_signature (pure_thunks thunk_value) obj_dispatch generic envir w
    = (Ret (dc, mcall), w') →
  NoDup (dispatch_promises w generic envir) →
  forces (trace w') =
    forces (trace w) ++
    filter (λ p, unforced w p = true) (dispatch_promises w generic envir) ∧
  ∀ k name p pr,
    formals_of generic !! k = Some name → k < n_dispatch_of w generic →
    supplied w envir name = Some p →
    proms w !! p = Some pr → is_unbound (PRVALUE pr) = false →
    ∃ cls, classes_for obj_dispatch (PRVALUE pr) = Ret cls ∧ dc !! k = Some cls.
Proof.
  intros Hb Hnd.
  pose proof (build_signature_length _ _ _ _ _ _ _ _ Hb) as Hlen.
  pose proof (build_signature_loop _ _ _ _ _ _ _ _ Hb) as Hloop.
  unfold dispatch_promises in *.
  apply args_loop_spec in Hloop as (_ & _ & _ & _ & _ & Hf & Hpos);
    rewrite Nat.sub_0_r in *; [|done].
  split; [done|].
  intros k name p pr Hk Hlt Hsup Hp Hu. specialize (Hpos k name Hk).
  unfold position_spec in Hpos. simpl in Hpos.
  rewrite decide_True, Hsup in Hpos by done.
  destruct Hpos as (val & tv & cls & pr' & Hpv & _ & Hcls & Hdc & _).
  unfold promise_value in Hpv. rewrite Hp, Hu in Hpv. injection Hpv as <-.
  exists cls. split; [done|]. apply Hdc. by rewrite Hlen.
Qed.

(** *** An argument that raises *)

Lemma args_loop_abort (envir : addr) (nd : nat) (name : string) (post : list string)
    (msg : string) :
  ∀ (pre : list string) (i : nat) (dc : signature_t) (w : world)
    (dc1 : signature_t) (cells : list cell) (w1 w2 : world),
  args_loop (pure_thunks thunk_value) obj_dispatch envir nd i pre dc w
    = (Ret (dc1, cells), w1) →
  arg_iter (pure_thunks thunk_value) obj_dispatch envir nd (i + length pre) name dc1 w1
    = (Raise msg, w2) →
  args_loop (pure_thunks thunk_value) obj_dispatch envir nd i (pre ++ name :: post) dc w
    = (Raise msg, w2).
Proof.
  induction pre as [|n pre IH]; intros i dc w dc1 cells w1 w2 Hpre Hstep.
  - injection Hpre as <- <- <-. rewrite Nat.add_0_r in Hstep. simpl.
    unfold mbind, M_bind at 1. by rewrite Hstep.
  - simpl in Hpre.
    apply bind_Ret in Hpre as ([dc0 c] & w0 & Hn & Hpre).
    apply bind_Ret in Hpre as ([dc0' cells'] & w0' & Hrest & Hpre).
    unfold mret, M_ret in Hpre. injection Hpre as <- <- <-.
    simpl. unfold mbind, M_bind at 1. rewrite Hn.
    unfold mbind, M_bind.
    rewrite (IH (S i) dc0 w0 dc0' cells' w0' w2 Hrest); [done|].
    by replace (S i + length pre) with (i + length (n :: pre)) by (simpl; lia).
Qed.

Lemma arg_iter_raise (envir : addr) (nd i : nat) (name : string) (dc : signature_t)
    (w : world) (p : addr) (msg : string) :
  i < nd →
  supplied w envir name = Some p →
  unforced w p = true →
  promise_value thunk_value w p = Raise msg →
  arg_iter (pure_thunks thunk_value) obj_dispatch envir nd i name dc w
  = (Raise msg, World (envs w) (proms w) (trace w ++ [EvForce p])).
Proof.
  intros Hi Hsup Hu Hpv.
  unfold supplied, code_of in Hsup. unfold unforced in Hu.
  unfold promise_value in Hpv.
  unfold arg_iter, get_world, mbind, M_bind at 1. rewrite decide_True by done.
  destruct (Rf_findVarInFrame (envs w) envir name) as [| | | |q| | | | | |];
    try done.
  destruct (proms w !! q) as [pr|] eqn:Hq; [|done].
  change ((if is_R_MissingArg (PRCODE pr) then None else Some q) = Some p) in Hsup.
  destruct (is_R_MissingArg (PRCODE pr)) eqn:Hm; [done|].
  injection Hsup as <-. rewrite Hq in Hu, Hpv. rewrite Hu in Hpv.
  unfold PRCODE_of, Rf_eval, Rf_eval_promise, pure_thunks, get_promise, host,
    halt, log, mbind, M_bind, mret, M_ret.
  rewrite Hq, Hm. simpl. rewrite Hq, Hu. simpl. by rewrite Hpv.
Qed.

(** X10. An error raised by the evaluation of a dispatch argument ends the
    call with that error: when the arguments before it were processed and
    the promise of the next dispatch argument, still unforced, raises, then
    [method_call_] raises the same error in the world that these arguments
    left, with the force of the failing promise recorded.  The failing
    promise keeps its empty value slot, no later argument is evaluated, no
    method is looked up and none is applied. *)
Theorem argument_error_ends_the_call (call generic : SEXP) (envir : addr)
    (pre : list string) (name : string) (post : list string)
    (w w1 : world) (dc1 : signature_t) (cells : list cell) (p : addr) (msg : string) :
  formals_of generic = pre ++ name :: post →
  length pre < n_dispatch_of w generic →
  args_loop (pure_thunks thunk_value) obj_dispatch envir (n_dispatch_of w generic) 0 pre
    (replicate (n_dispatch_of w generic) []) w = (Ret (dc1, cells), w1) →
  supplied w1 envir name = Some p →
  unforced w1 p = true →
  promise_value thunk_value w1 p = Raise msg →
  method_call_ (pure_thunks thunk_value) obj_dispatch method_lookup_error apply_closure
    call generic (ENVSXP envir) w
  = (Raise msg, World (envs w1) (proms w1) (trace w1 ++ [EvForce p])).
Proof.
  intros Hf Hlt Hpre Hsup Hu Hpv.
  assert (Hb : build_signature (pure_thunks thunk_value) obj_dispatch generic envir w
    = (Raise msg, World (envs w1) (proms w1) (trace w1 ++ [EvForce p]))).
  { unfold build_signature. destruct generic; try (by destruct pre).
    simpl in Hf. unfold get_world, mbind, M_bind. simpl. rewrite Hf.
    eapply args_loop_abort; [exact Hpre|].
    by apply arg_iter_raise. }
  unfold method_call_, mbind, M_bind. by rewrite Hb.
Qed.

End CallForce.

(** ** The further properties on the examples *)

Lemma method_rec_returns_applicable_method_witness :
  method_rec speak_heap 0 [["dog"; "animal"]; ["bird"; "animal"]] 0 = Ret m2 ∧
  ∃ keys, admissible [["dog"; "animal"]; ["bird"; "animal"]] 0 keys = true ∧
          walk speak_heap 0 keys = m2 ∧
          TYPEOF (walk speak_heap 0 keys) = CLOSXP_t.
Proof.
  assert (H : method_rec speak_heap 0 [["dog"; "animal"]; ["bird"; "animal"]] 0
              = Ret m2) by (vm_compute; reflexivity).
  split; [exact H|].
  apply (method_rec_returns_applicable_method speak_heap 0
           [["dog"; "animal"]; ["bird"; "animal"]] 0 m2 H).
  discriminate.
Defined.

Lemma method_rec_ignores_other_keys_witness :
  ¬ dispatch_key [["dog"; "animal"]; ["cat"; "animal"]] "fish" ∧
  method_rec (<[0 := <["fish" := m3]> {[ "dog" := ENVSXP 1; "ANY" := ENVSXP 2 ]}]> speak_heap)
    0 [["dog"; "animal"]; ["cat"; "animal"]] 0
  = method_rec speak_heap 0 [["dog"; "animal"]; ["cat"; "animal"]] 0.
Proof.
  assert (H : ¬ dispatch_key [["dog"; "animal"]; ["cat"; "animal"]] "fish").
  { apply (bool_decide_unpack
             (¬ dispatch_key [["dog"; "animal"]; ["cat"; "animal"]] "fish")).
    vm_compute. exact I. }
  split; [exact H|].
  apply (method_rec_ignores_other_keys speak_heap 0
           [["dog"; "animal"]; ["cat"; "animal"]] 0 0
           {[ "dog" := ENVSXP 1; "ANY" := ENVSXP 2 ]} "fish" m3).
  - vm_compute. reflexivity.
  - exact H.
Defined.

Lemma build_signature_shape_witness :
  (build_signature (pure_thunks ex_eval_code) ex_obj_dispatch
     (mk_generic_on ["x"; "y"; "z"]) 10 w_dog_cat).1
  = Ret ([["dog"; "animal"]; ["cat"; "animal"]; []], [promise_cell 0; promise_cell 1]) ∧
  length [["dog"; "animal"]; ["cat"; "animal"]; ([] : list string)]
  = n_dispatch_of w_dog_cat (mk_generic_on ["x"; "y"; "z"]).
Proof.
  split; [by vm_compute|].
  refine (proj1 (build_signature_shape (pure_thunks ex_eval_code) ex_obj_dispatch
            (mk_generic_on ["x"; "y"; "z"]) 10 w_dog_cat
            (build_signature (pure_thunks ex_eval_code) ex_obj_dispatch
               (mk_generic_on ["x"; "y"; "z"]) 10 w_dog_cat).2
            [["dog"; "animal"]; ["cat"; "animal"]; []]
            [promise_cell 0; promise_cell 1] _)).
  vm_compute. reflexivity.
Defined.

Lemma no_dispatch_argument_no_method_witness :
  method_call_ (pure_thunks ex_eval_code) ex_obj_dispatch ex_method_lookup_error
    ex_apply_closure R_NilValue (mk_generic_on []) (ENVSXP 10) w_dog_cat
  = (Raise "Can't find method for generic",
     World (envs w_dog_cat) (proms w_dog_cat)
       [EvLookupError (STRSXP ["speak"]) (STRSXP []) []]).
Proof.
  apply (no_dispatch_argument_no_method (pure_thunks ex_eval_code) ex_obj_dispatch
           ex_method_lookup_error ex_apply_closure R_NilValue
           {| FORMALS := ["x"; "y"]; BODY := 0 |}
           [("class", STRSXP ["R7_generic"; "function"]);
            ("name", STRSXP ["speak"]);
            ("dispatch_args", STRSXP []);
            ("methods", ENVSXP 0)] 0 10 w_dog_cat); reflexivity.
Defined.

Lemma forced_promise_is_not_forced_again_witness :
  (built w_forced_cat).1
  = Ret ([["dog"; "animal"]; ["cat"; "animal"]], [promise_cell 0; promise_cell 1]) ∧
  forces (trace (built w_forced_cat).2)
  = forces (trace w_forced_cat) ++
    filter (λ p, unforced w_forced_cat p = true) (dispatch_promises w_forced_cat speak 10).
Proof.
  split; [by vm_compute|].
  refine (proj1 (forced_promise_is_not_forced_again ex_eval_code ex_obj_dispatch
            speak 10 w_forced_cat (built w_forced_cat).2
            [["dog"; "animal"]; ["cat"; "animal"]]
            [promise_cell 0; promise_cell 1] _ _)).
  - vm_compute. reflexivity.
  - replace (dispatch_promises w_forced_cat speak 10) with [0; 1]
      by (vm_compute; reflexivity).
    exact NoDup_two_promises.
Defined.

Lemma argument_error_ends_the_call_witness :
  method_call_ (pure_thunks ex_eval_code) ex_obj_dispatch ex_method_lookup_error
    ex_apply_closure R_NilValue speak (ENVSXP 10) w_dog_boom
  = (Raise "eval",
     World (envs w_dog_boom_x) (proms w_dog_boom_x) (trace w_dog_boom_x ++ [EvForce 1])).
Proof.
  apply (argument_error_ends_the_call ex_eval_code ex_obj_dispatch
           ex_method_lookup_error ex_apply_closure R_NilValue speak 10
           ["x"] "y" [] w_dog_boom w_dog_boom_x
           [["dog"; "animal"]; []] [promise_cell 0] 1 "eval").
  - reflexivity.
  - vm_compute. lia.
  - vm_compute. reflexivity.
  - vm_compute. reflexivity.
  - vm_compute. reflexivity.
  - vm_compute. reflexivity.
Defined.

(** The method is resolved once every argument has been evaluated, in the
    table as the arguments left it: before the call (dog, bird) resolves to
    [m2]; the second argument registers [m4] for it, and [m4] is called. *)
Example speak_registering_argument :
  method_rec (envs w_dog_register) 0 [["dog"; "animal"]; ["bird"; "animal"]] 0 = Ret m2 ∧
  (method_call_ ex_eval_effect ex_obj_dispatch ex_method_lookup_error ex_apply_closure
     R_NilValue speak (ENVSXP 10) w_dog_register).1 = Ret m4.
Proof. split; vm_compute; reflexivity. Qed.
